(** * Shooter game server: a shallow embedding of [cmd/server]

    The server keeps six player slots, a round counter and a live player
    count.  Every websocket connection is served by [serveWs]: admission,
    handshake ([initialisePlayer]), then a receive loop that decodes one
    message at a time.  [run] fans broadcasts out, and sends the periodic
    location snapshot built by [serialiseLocations].

    Modelling choices.
    - Go's [int] is a 64-bit signed integer: a [Z] wrapped by [wrap_int]
      after every arithmetic operation.  A [byte] is a [Z] in [0,256); an
      [int8] is a [Z] in [-128,128).
    - The array [players] is a list indexed with a bounds check; an index
      outside [0,6) is a run-time panic, as is a method call that
      dereferences a nil [*websocket.Conn].
    - Handlers live in a small monad that threads the server, collects
      what the handler emits (writes, broadcasts, log lines, timers) and
      stops at a panic.
    - One handler invocation is one atomic step; [sync.Mutex] is therefore
      not represented.  Results of I/O calls ([ReadMessage],
      [WriteMessage], [Upgrade]) are inputs of the step.  A run is thus a
      sequence of whole handler calls: it has no state in which one
      connection has passed the admission test of [serveWs] and waits
      for its id message while another registers, and none in which a
      handler waits for the mutex.  What depends on such states is
      stated of a single handler call, from an arbitrary server, and not
      of runs. *)

From Stdlib Require Import ZArith Lia.
From stdpp Require Import base list strings.

Open Scope Z_scope.

(** ** Machine integers *)

Definition int_min : Z := - 2 ^ 63.
Definition int_max : Z := 2 ^ 63 - 1.

(** Two's complement wrap-around of Go's [int]. *)
Definition wrap_int (v : Z) : Z := (v + 2 ^ 63) mod 2 ^ 64 - 2 ^ 63.

(** The conversion [byte(v)]. *)
Definition to_byte (v : Z) : Z := v mod 256.

(** The conversion [int8(v)] of a byte. *)
Definition to_int8 (v : Z) : Z :=
  let m := v mod 256 in if m <? 128 then m else m - 256.

(** ** Constants *)

Definition maxPlayers : Z := 6.
Definition maxTeamPlayers : Z := Z.shiftr maxPlayers 1.

Definition roundStartGraceTime : Z := 8.
Definition roundEndGraceTime : Z := 8.
Definition lastRound : Z := 10.
Definition maxHealth : Z := 3.
Definition afterGameLingerTime : Z := 2.

Inductive messageHeaders :=
| nextRoundHeader
| playerHeader
| locationsHeader
| shotHeader
| killedHeader
| teamPointHeader
| loseHealthHeader
| playerDisconnectHeader.

(** [byte(h)]: the constants are numbered by [iota]. *)
Definition header_byte (h : messageHeaders) : Z :=
  match h with
  | nextRoundHeader => 0
  | playerHeader => 1
  | locationsHeader => 2
  | shotHeader => 3
  | killedHeader => 4
  | teamPointHeader => 5
  | loseHealthHeader => 6
  | playerDisconnectHeader => 7
  end.

Definition hitMessage : Z := 0.
Definition shotMessage : Z := 1.
Definition locationMessage : Z := 2.

(** [successResponse] *)
Definition success : Z := 0.
Definition failure : Z := 1.

(** ** Players *)

Module Team.
Inductive team := a | b.

Definition eqb (t u : team) : bool :=
  match t, u with
  | a, a | b, b => true
  | _, _ => false
  end.

(** [byte(t)] *)
Definition byte (t : team) : Z :=
  match t with a => 0 | b => 1 end.
End Team.

(** A [*websocket.Conn] is an opaque handle; [None] is the nil pointer. *)
Definition connId := nat.

Module Player.
Record player := mk {
  id : Z;
  health : Z;
  team : Team.team;
  conn : option connId;
  isAlive : bool;
  x : Z;
  y : Z;
  z : Z
}.

(** The zero value [player{}]. *)
Definition zero : player :=
  mk 0 0 Team.a None false 0 0 0.

Definition set_health (h : Z) (p : player) : player :=
  mk (id p) h (team p) (conn p) (isAlive p) (x p) (y p) (z p).
Definition set_isAlive (v : bool) (p : player) : player :=
  mk (id p) (health p) (team p) (conn p) v (x p) (y p) (z p).
Definition set_x (v : Z) (p : player) : player :=
  mk (id p) (health p) (team p) (conn p) (isAlive p) v (y p) (z p).
Definition set_y (v : Z) (p : player) : player :=
  mk (id p) (health p) (team p) (conn p) (isAlive p) (x p) v (z p).
Definition set_z (v : Z) (p : player) : player :=
  mk (id p) (health p) (team p) (conn p) (isAlive p) (x p) (y p) v.
End Player.

Abbreviation player := Player.player.

Definition newPlayer (id : Z) (conn : connId) : player :=
  let team := if id <? maxTeamPlayers then Team.a else Team.b in
  Player.mk id 0 team (Some conn) false 0 0 0.

Definition isEmpty (p : player) : bool :=
  match Player.conn p with
  | None => true
  | Some _ => false
  end.

(** ** The server *)

Record server := mkServer {
  players : list player;
  teamAPoints : Z;
  teamBPoints : Z;
  round : Z;
  numPlayers : Z;
  currentNumPlayers : Z
}.

Definition newServer (numPlayers : Z) : server :=
  mkServer (replicate (Z.to_nat maxPlayers) Player.zero) 0 0 0 numPlayers 0.

Definition set_players (ps : list player) (s : server) : server :=
  mkServer ps (teamAPoints s) (teamBPoints s) (round s) (numPlayers s)
           (currentNumPlayers s).
Definition set_round (r : Z) (s : server) : server :=
  mkServer (players s) (teamAPoints s) (teamBPoints s) r (numPlayers s)
           (currentNumPlayers s).
Definition set_currentNumPlayers (n : Z) (s : server) : server :=
  mkServer (players s) (teamAPoints s) (teamBPoints s) (round s)
           (numPlayers s) n.

(** ** What a handler emits *)

(** Callbacks handed to [time.AfterFunc]. *)
Inductive task :=
| nextRoundTask   (* server.nextRound *)
| playTask        (* broadcast of playerHeader *)
| exitTask.       (* server.cleanUp(); os.Exit(0) *)

Inductive error :=
| errRead | errWrite | errUpgrade
| errBadId        (* "Badly formed ID team message" *)
| errSlotTaken.   (* "Player slot is taken" *)

Inductive output :=
| WriteMessage (c : connId) (m : list Z)   (* c.WriteMessage(BinaryMessage, m) *)
| Broadcast (m : list Z)                   (* server.broadcast <- m *)
| Log (msg : string)                       (* log.Println("...") *)
| LogErr (e : error)                       (* log.Println(err) *)
| AfterFunc (secs : Z) (t : task)          (* time.AfterFunc(secs*time.Second, t) *)
| HttpError (msg : string) (code : Z).     (* http.Error(w, msg, code) *)

Inductive panic :=
| IndexOutOfRange (i : Z)
| NilDereference.

(** ** The handler monad *)

Inductive result (A : Type) :=
| Ok (v : A) (s : server) (out : list output)
| Panicked (p : panic) (s : server) (out : list output).
Arguments Ok {A} v s out.
Arguments Panicked {A} p s out.

Definition M (A : Type) : Type := server -> result A.

Definition ret {A} (v : A) : M A := fun s => Ok v s [].

(** What was emitted before [r] stays in front of what [r] emits. *)
Definition prepend {A} (o : list output) (r : result A) : result A :=
  match r with
  | Ok v s o2 => Ok v s (o ++ o2)
  | Panicked p s o2 => Panicked p s (o ++ o2)
  end.

Definition bind {A B} (m : M A) (f : A -> M B) : M B :=
  fun s =>
    match m s with
    | Ok v s1 o1 => prepend o1 (f v s1)
    | Panicked p s1 o1 => Panicked p s1 o1
    end.

Notation "x <- m ;; k" := (bind m (fun x => k))
  (at level 200, m at level 99, k at level 200, right associativity).
Notation "m ;;; k" := (bind m (fun _ => k))
  (at level 200, k at level 200, right associativity).

Definition get : M server := fun s => Ok s s [].
Definition modify (f : server -> server) : M unit := fun s => Ok tt (f s) [].
Definition emit (o : output) : M unit := fun s => Ok tt s [o].
Definition raise {A} (p : panic) : M A := fun s => Panicked p s [].

Definition state_of {A} (r : result A) : server :=
  match r with Ok _ s _ | Panicked _ s _ => s end.
Definition output_of {A} (r : result A) : list output :=
  match r with Ok _ _ o | Panicked _ _ o => o end.
Definition panicked {A} (r : result A) : bool :=
  match r with Ok _ _ _ => false | Panicked _ _ _ => true end.

(** What a handler returned with, if it did. *)
Definition value_of {A} (r : result A) : option A :=
  match r with Ok v _ _ => Some v | Panicked _ _ _ => None end.

(** What a handler panicked with, if it did. *)
Definition panic_of {A} (r : result A) : option panic :=
  match r with Ok _ _ _ => None | Panicked e _ _ => Some e end.

(** [server.players[i]] as a value: panics outside the array. *)
Definition player_at (i : Z) : M player :=
  fun s =>
    if (0 <=? i) && (i <? maxPlayers) then
      match players s !! Z.to_nat i with
      | Some p => Ok p s []
      | None => Panicked (IndexOutOfRange i) s []
      end
    else Panicked (IndexOutOfRange i) s [].

(** [server.players[i] = f(server.players[i])]: panics outside the array. *)
Definition update_player (i : Z) (f : player -> player) : M unit :=
  p <- player_at i ;;
  modify (fun s => set_players (<[Z.to_nat i := f p]> (players s)) s).

(** A method call through a [*websocket.Conn]: panics on nil. *)
Definition deref (c : option connId) : M connId :=
  match c with
  | Some k => ret k
  | None => raise NilDereference
  end.

(** [if err := c.WriteMessage(..., m); err != nil { log.Println(err) }];
    [wok] tells whether the write succeeds. *)
Definition write_logged (c : connId) (m : list Z) (wok : bool) : M unit :=
  emit (WriteMessage c m) ;;;
  if wok then ret tt else emit (LogErr errWrite).

Definition broadcastByteMessage (m : list Z) : M unit := emit (Broadcast m).

(** ** Round control *)

(** The loop of [isTeamAAllDead] and [isTeamBAllDead] over a slice of the
    array: the first occupied, living player ends it with [false]. *)
Fixpoint allDead (ps : list player) : bool :=
  match ps with
  | [] => true
  | p :: rest =>
      if negb (isEmpty p) && Player.isAlive p then false else allDead rest
  end.

Definition isTeamAAllDead (s : server) : bool :=
  allDead (take (Z.to_nat maxTeamPlayers) (players s)).

Definition isTeamBAllDead (s : server) : bool :=
  allDead (drop (Z.to_nat maxTeamPlayers) (players s)).

(** The reset loop of [nextRound]: every slot of the array, occupied or
    not, gets full health and is alive again. *)
Definition resetPlayers (ps : list player) : list player :=
  map (fun p => Player.set_isAlive true (Player.set_health maxHealth p)) ps.

Definition nextRound : M unit :=
  s <- get ;;
  (if round s =? lastRound
   then emit (AfterFunc afterGameLingerTime exitTask)
   else ret tt) ;;;
  modify (fun s => set_players (resetPlayers (players s)) s) ;;;
  broadcastByteMessage [header_byte nextRoundHeader] ;;;
  modify (fun s => set_round (wrap_int (round s + 1)) s) ;;;
  emit (AfterFunc roundStartGraceTime playTask).

(** ** Location snapshots and the broadcaster *)

(** The loop of [serialiseLocations]: [buf] is the [bytes.Buffer]; an empty
    slot is skipped, an occupied one appends its four-byte
    [locationParcel].  ([binary.Write] to a [bytes.Buffer] of fixed-size
    values does not fail.) *)
Fixpoint writeLocations (ps : list player) (buf : list Z) : list Z :=
  match ps with
  | [] => buf
  | p :: rest =>
      if isEmpty p then writeLocations rest buf
      else writeLocations rest
             (buf ++ [to_byte (Player.id p); to_byte (Player.x p);
                      to_byte (Player.y p); to_byte (Player.z p)])
  end.

Definition serialiseLocations (s : server) : list Z :=
  writeLocations (players s) [header_byte locationsHeader].

(** The loop of [run] over the array: one write to every occupied slot's
    connection; [wok c] tells whether the write to [c] succeeds. *)
Definition fanout (wok : connId -> bool) (m : list Z) (ps : list player)
  : list output :=
  flat_map
    (fun p =>
       match Player.conn p with
       | None => []
       | Some c =>
           WriteMessage c m :: (if wok c then [] else [LogErr errWrite])
       end) ps.

(** [run], case [broadcastMessage := <-server.broadcast]. *)
Definition run_broadcast (wok : connId -> bool) (m : list Z) (s : server)
  : list output :=
  fanout wok m (players s).

(** [run], case [<-ticker.C]. *)
Definition run_tick (wok : connId -> bool) (s : server) : list output :=
  if round s =? 0 then []
  else fanout wok (serialiseLocations s) (players s).

(** ** The receive loop of [serveWs] *)

(** What [conn.ReadMessage()] returns: a message, an error for which
    [websocket.IsCloseError(err, CloseNormalClosure, CloseGoingAway)] holds,
    or any other error. *)
Inductive readResult :=
| ReadMessage (m : list Z)
| ReadClose
| ReadError.

Inductive loopCtl := Continue | Break.

(** [message[i]] *)
Definition byte_at (i : nat) (message : list Z) : Z := nth i message 0.

(** The body of [case byte(hitMessage)] once the length check has passed. *)
Definition handleHit (newPlayer : player) (wok : bool) (message : list Z)
  : M unit :=
  let hitPlayerId := byte_at 1 message in
  let damage := byte_at 2 message in
  update_player hitPlayerId
    (fun p => Player.set_health (wrap_int (Player.health p - damage)) p) ;;;
  p <- player_at hitPlayerId ;;
  c <- deref (Player.conn p) ;;
  write_logged c [header_byte loseHealthHeader; to_byte damage] wok ;;;
  p <- player_at hitPlayerId ;;
  if Player.health p <? 1 then
    update_player hitPlayerId (Player.set_isAlive false) ;;;
    broadcastByteMessage
      [header_byte killedHeader; to_byte (Player.id newPlayer);
       to_byte hitPlayerId] ;;;
    p <- player_at hitPlayerId ;;
    s <- get ;;
    if Team.eqb (Player.team p) Team.a && isTeamAAllDead s then
      broadcastByteMessage [header_byte teamPointHeader; Team.byte Team.b] ;;;
      emit (AfterFunc roundEndGraceTime nextRoundTask)
    else if Team.eqb (Player.team p) Team.b && isTeamBAllDead s then
      broadcastByteMessage [header_byte teamPointHeader; Team.byte Team.a] ;;;
      emit (AfterFunc roundEndGraceTime nextRoundTask)
    else ret tt
  else ret tt.

(** The body of [case byte(locationMessage)] once the length check has
    passed. *)
Definition handleLocation (newPlayer : player) (message : list Z) : M unit :=
  update_player (Player.id newPlayer)
    (Player.set_x (to_int8 (byte_at 1 message))) ;;;
  update_player (Player.id newPlayer)
    (Player.set_y (to_int8 (byte_at 2 message))) ;;;
  update_player (Player.id newPlayer)
    (Player.set_z (to_int8 (byte_at 3 message))).

(** The [switch message[0]] of the loop. *)
Definition dispatch (newPlayer : player) (wok : bool) (message : list Z)
  : M unit :=
  let kind := byte_at 0 message in
  if kind =? hitMessage then
    if negb (length message =? 3)%nat
    then emit (Log "Incorrect message size for hit message")
    else handleHit newPlayer wok message
  else if kind =? shotMessage then
    broadcastByteMessage
      [header_byte shotHeader; to_byte (Player.id newPlayer)]
  else if kind =? locationMessage then
    if negb (length message =? 4)%nat
    then emit (Log "Incorrect message size for location message")
    else handleLocation newPlayer message
  else emit (Log "Invalid client message").

(** One iteration of the communication loop; [r] is what [ReadMessage]
    returned and [wok] whether the handler's own write succeeds. *)
Definition loop_body (newPlayer : player) (r : readResult) (wok : bool)
  : M loopCtl :=
  match r with
  | ReadClose => ret Break
  | ReadError => emit (LogErr errRead) ;;; ret Continue
  | ReadMessage message =>
      if (length message =? 0)%nat
      then emit (Log "Empty message") ;;; ret Continue
      else dispatch newPlayer wok message ;;; ret Continue
  end.

(** The code after the loop: "handle disconnect of player". *)
Definition disconnect (newPlayer : player) : M unit :=
  let disconnectedPlayerId := Player.id newPlayer in
  update_player (Player.id newPlayer) (fun _ => Player.zero) ;;;
  modify (fun s =>
            set_currentNumPlayers (wrap_int (currentNumPlayers s - 1)) s) ;;;
  broadcastByteMessage
    [header_byte playerDisconnectHeader; to_byte disconnectedPlayerId].

(** ** Admission and handshake *)

(** [initialisePlayer(conn)]: [r] is the result of the read of the id
    message, [wok] whether the write of the success byte succeeds.  The
    result of the write of the failure byte is discarded by the code. *)
Definition initialisePlayer (conn : connId) (r : readResult) (wok : bool)
  : M (player * option error) :=
  match r with
  | ReadClose | ReadError => ret (Player.zero, Some errRead)
  | ReadMessage idMessage =>
      if negb (length idMessage =? 1)%nat
         || (byte_at 0 idMessage <? 0) || (5 <? byte_at 0 idMessage)
      then
        emit (WriteMessage conn [failure]) ;;;
        ret (Player.zero, Some errBadId)
      else
        let id := byte_at 0 idMessage in
        p <- player_at id ;;
        if negb (isEmpty p) then
          emit (WriteMessage conn [failure]) ;;;
          ret (Player.zero, Some errSlotTaken)
        else
          let newP := newPlayer id conn in
          update_player id (fun _ => newP) ;;;
          modify (fun s =>
                    set_currentNumPlayers
                      (wrap_int (currentNumPlayers s + 1)) s) ;;;
          emit (WriteMessage conn [success]) ;;;
          if wok then ret (newP, None) else ret (newP, Some errWrite)
  end.

(** [serveWs] up to the communication loop.  [upgradeOk] tells whether
    [upgrader.Upgrade] succeeds and yields [conn].  The result is the
    [newPlayer] the loop runs with, or [None] when the handler returns
    before the loop. *)
Definition serveWs_enter (conn : connId) (upgradeOk : bool)
    (r : readResult) (wok : bool) : M (option player) :=
  s <- get ;;
  if numPlayers s <=? currentNumPlayers s then
    emit (HttpError "Lobby is full" 403) ;;; ret None
  else if 0 <? round s then
    emit (HttpError "Game is in progress" 403) ;;; ret None
  else if negb upgradeOk then
    emit (LogErr errUpgrade) ;;; ret None
  else
    res <- initialisePlayer conn r wok ;;
    match snd res with
    | Some e => emit (LogErr e) ;;; ret None
    | None =>
        s <- get ;;
        (if currentNumPlayers s =? numPlayers s then nextRound else ret tt) ;;;
        ret (Some (fst res))
    end.

(** ** The whole process

    The goroutines of the process, one step at a time: the connections
    that are inside their communication loop (each with the [newPlayer]
    local of its [serveWs] call), the callbacks that [time.AfterFunc] has
    scheduled and that have not run yet, and whether [os.Exit] was
    reached.  Deadlines are not represented: any pending callback may be
    the next to run. *)

Record system := mkSystem {
  srv : server;
  timers : list (Z * task);
  loops : list (connId * player);
  exited : bool
}.

Inductive event :=
| Connect (c : connId) (upgradeOk : bool) (r : readResult) (wok : bool)
| Receive (c : connId) (r : readResult) (wok : bool)
| Fire (n : nat)
| Tick (wok : connId -> bool).

Definition boot (numPlayers : Z) : system :=
  mkSystem (newServer numPlayers) [] [] false.

(** The callbacks scheduled by a handler, in the order of the calls. *)
Fixpoint scheduled (out : list output) : list (Z * task) :=
  match out with
  | [] => []
  | AfterFunc d t :: rest => (d, t) :: scheduled rest
  | _ :: rest => scheduled rest
  end.

Fixpoint find_loop (c : connId) (ls : list (connId * player))
  : option player :=
  match ls with
  | [] => None
  | (k, p) :: rest => if Nat.eqb k c then Some p else find_loop c rest
  end.

Fixpoint remove_loop (c : connId) (ls : list (connId * player))
  : list (connId * player) :=
  match ls with
  | [] => []
  | (k, p) :: rest =>
      if Nat.eqb k c then remove_loop c rest else (k, p) :: remove_loop c rest
  end.

(** The body of a callback; the exit of the process is recorded by
    [step]. *)
Definition run_task (t : task) : M unit :=
  match t with
  | nextRoundTask => nextRound
  | playTask => broadcastByteMessage [header_byte playerHeader]
  | exitTask => ret tt
  end.

Definition step (sys : system) (e : event) : system * list output :=
  if exited sys then (sys, [])
  else
    match e with
    | Connect c upgradeOk r wok =>
        match serveWs_enter c upgradeOk r wok (srv sys) with
        | Ok (Some p) s out =>
            (mkSystem s (timers sys ++ scheduled out)
                      (loops sys ++ [(c, p)]) false, out)
        | Ok None s out | Panicked _ s out =>
            (mkSystem s (timers sys ++ scheduled out) (loops sys) false, out)
        end
    | Receive c r wok =>
        match find_loop c (loops sys) with
        | None => (sys, [])
        | Some p =>
            match (ctl <- loop_body p r wok ;;
                   match ctl with
                   | Continue => ret Continue
                   | Break => disconnect p ;;; ret Break
                   end) (srv sys) with
            | Ok Continue s out =>
                (mkSystem s (timers sys ++ scheduled out) (loops sys) false,
                 out)
            | Ok Break s out | Panicked _ s out =>
                (mkSystem s (timers sys ++ scheduled out)
                          (remove_loop c (loops sys)) false, out)
            end
        end
    | Fire n =>
        match timers sys !! n with
        | None => (sys, [])
        | Some (_, t) =>
            let pending := take n (timers sys) ++ drop (S n) (timers sys) in
            match run_task t (srv sys) with
            | Ok _ s out | Panicked _ s out =>
                (mkSystem s (pending ++ scheduled out) (loops sys)
                          (match t with exitTask => true | _ => false end),
                 out)
            end
        end
    | Tick wok => (sys, run_tick wok (srv sys))
    end.

(** A run: the final state and everything emitted, in order. *)
Fixpoint exec (sys : system) (es : list event) : system * list output :=
  match es with
  | [] => (sys, [])
  | e :: rest =>
      let '(sys1, out1) := step sys e in
      let '(sys2, out2) := exec sys1 rest in
      (sys2, out1 ++ out2)
  end.

(** A Hit message as [ReadMessage] delivers it. *)
Definition hit (target damage : Z) : readResult :=
  ReadMessage [hitMessage; target; damage].

(** ** Vocabulary of the statements *)

(** What the hit handler emits when a team is wiped out: the point of the
    other team and the timer of the next round. *)
Definition teamPoint (t : Team.team) : list output :=
  [Broadcast [header_byte teamPointHeader; Team.byte t];
   AfterFunc roundEndGraceTime nextRoundTask].

Definition other (t : Team.team) : Team.team :=
  match t with Team.a => Team.b | Team.b => Team.a end.

(** The elimination check the hit handler runs for a victim of team [t]. *)
Definition teamAllDead (t : Team.team) (s : server) : bool :=
  match t with
  | Team.a => isTeamAAllDead s
  | Team.b => isTeamBAllDead s
  end.

(** Some occupied slot of the slice holds a living player. *)
Definition someAlive (ps : list player) : bool :=
  existsb (fun p => negb (isEmpty p) && Player.isAlive p) ps.

Definition is_broadcast_of (h : messageHeaders) (o : output) : bool :=
  match o with
  | Broadcast (k :: _) => k =? header_byte h
  | _ => false
  end.

(** The broadcasts with header [h] among what was emitted. *)
Definition broadcasts_of (h : messageHeaders) (out : list output)
  : list output :=
  List.filter (is_broadcast_of h) out.

(** What was emitted before the first NextRound broadcast. *)
Fixpoint until_nextRound (out : list output) : list output :=
  match out with
  | [] => []
  | o :: rest =>
      if is_broadcast_of nextRoundHeader o then []
      else o :: until_nextRound rest
  end.

Definition occupied (p : player) : bool := negb (isEmpty p).

(** The four bytes of a [locationParcel]. *)
Definition parcel (p : player) : list Z :=
  [to_byte (Player.id p); to_byte (Player.x p); to_byte (Player.y p);
   to_byte (Player.z p)].

(** The messages that the receive loop refuses: empty, a Hit that is not
    three bytes long, a Location that is not four bytes long, or a kind
    byte other than Hit, Shot and Location. *)
Definition refused (message : list Z) : bool :=
  match message with
  | [] => true
  | kind :: _ =>
      if kind =? hitMessage then negb (length message =? 3)%nat
      else if kind =? shotMessage then false
      else if kind =? locationMessage then negb (length message =? 4)%nat
      else true
  end.

(** The handshake message asks for a slot of the array. *)
Definition asks_slot (idMessage : list Z) (i : Z) : Prop :=
  idMessage = [i] /\ 0 <= i <= 5.

(** A computation that leaves the round counter alone. *)
Definition keeps_round {A} (m : M A) : Prop :=
  forall s, round (state_of (m s)) = round s.

(** A computation that leaves it alone or runs [nextRound] once. *)
Definition advances_round {A} (m : M A) : Prop :=
  forall s, round (state_of (m s)) = round s
            \/ round (state_of (m s)) = wrap_int (round s + 1).

(** ** Scenarios *)

(** A lobby of two, player 0 (team a) on connection 10 and player 3
    (team b) on connection 11; the second handshake starts round 1. *)
Definition duel : system :=
  fst (exec (boot 2)
         [Connect 10%nat true (ReadMessage [0]) true;
          Connect 11%nat true (ReadMessage [3]) true]).

(** One round of the duel: Play is announced, player 0 takes the three
    health points of player 3 with one hit, the next round starts. *)
Definition duel_round : list event :=
  [Fire 0; Receive 10%nat (hit 3 3) true; Fire 0].

(** Round 10 of the duel, player 3 just eliminated: the callback that
    ends the round is the only one pending. *)
Definition duel_last_round : system :=
  fst (exec duel
         (concat (replicate 9 duel_round)
            ++ [Fire 0; Receive 10%nat (hit 3 3) true])).

(** The duel once player 3 has reported a position. *)
Definition located_events : list event :=
  [Connect 10%nat true (ReadMessage [0]) true;
   Connect 11%nat true (ReadMessage [3]) true;
   Receive 11%nat (ReadMessage [locationMessage; 8; 0; 250]) true].

(** The [newPlayer] locals of the two [serveWs] calls of the duel. *)
Definition player0 : player := newPlayer 0 10%nat.
Definition player3 : player := newPlayer 3 11%nat.

(** The duel in round 1, Play announced. *)
Definition duel_playing : system := fst (step duel (Fire 0)).

(** ** Vocabulary of the further properties *)

(** What identifies the holder of a slot: id, team and connection. *)
Definition ident (p : player) : Z * Team.team * option connId :=
  (Player.id p, Player.team p, Player.conn p).

(** The registry: who holds which slot, the live count, and the fields of
    the server that are set at start-up. *)
Definition registry (s : server)
  : list (Z * Team.team * option connId) * Z * Z * Z * Z :=
  (ident <$> players s, currentNumPlayers s, numPlayers s,
   teamAPoints s, teamBPoints s).

(** A computation that leaves the observation [f] of the server alone. *)
Definition keeps {A X} (f : server -> X) (m : M A) : Prop :=
  forall s, f (state_of (m s)) = f s.

(** The number of occupied slots. *)
Definition count_occupied (ps : list player) : Z :=
  Z.of_nat (length (List.filter occupied ps)).

(** The live count is in step with the array: six slots, of which the
    count is the number occupied. *)
Definition count_in_step (s : server) : Prop :=
  length (players s) = Z.to_nat maxPlayers
  /\ currentNumPlayers s = count_occupied (players s).

(** The team [newPlayer] gives to the holder of slot [i]. *)
Definition team_of_slot (i : Z) : Team.team :=
  if i <? maxTeamPlayers then Team.a else Team.b.

(** The registry of a process started with [n] players to wait for:
    [ls] are the connections inside their receive loop. *)
Record registry_ok (n : Z) (s : server) (ls : list (connId * player))
  : Prop := mkRegistryOk {
  reg_length : length (players s) = Z.to_nat maxPlayers;
  reg_slots :
    forall (i : nat) (p : player),
      players s !! i = Some p -> isEmpty p = false ->
      Player.id p = Z.of_nat i /\ Player.team p = team_of_slot (Z.of_nat i);
  reg_count : currentNumPlayers s = count_occupied (players s);
  reg_bound : currentNumPlayers s <= Z.max n 0;
  reg_loops :
    forall (c : connId) (p : player),
      In (c, p) ls ->
      0 <= Player.id p < maxPlayers /\
      exists q, players s !! Z.to_nat (Player.id p) = Some q
                /\ Player.conn q = Some c;
  reg_config : numPlayers s = n /\ teamAPoints s = 0 /\ teamBPoints s = 0
}.

(** A Location message as [ReadMessage] delivers it. *)
Definition location (a b c : Z) : readResult :=
  ReadMessage [locationMessage; a; b; c].

(** The three assignments of the Location case. *)
Definition moved (a b c : Z) (p : player) : player :=
  Player.set_z (to_int8 c) (Player.set_y (to_int8 b)
                              (Player.set_x (to_int8 a) p)).

(** Where everybody is, and how everybody is. *)
Definition placement (s : server) : list (Z * Z * Z) :=
  (fun p => (Player.x p, Player.y p, Player.z p)) <$> players s.
Definition vitals (s : server) : list (Z * bool) :=
  (fun p => (Player.health p, Player.isAlive p)) <$> players s.



(** The writes among what was emitted: connection and frame. *)
Definition writes_of (out : list output) : list (connId * list Z) :=
  omap (fun o => match o with
                 | WriteMessage c m => Some (c, m)
                 | _ => None
                 end) out.

(** The connections of the occupied slots, in slot order. *)
Definition connections (s : server) : list connId :=
  omap Player.conn (players s).

(** The coordinates of a slot are int8 values. *)
Definition int8_position (p : player) : Prop :=
  (-128 <= Player.x p < 128) /\ (-128 <= Player.y p < 128)
  /\ (-128 <= Player.z p < 128).

(** A computation under which a property of the single slots, once true
    of all of them, stays true of all of them. *)
Definition keeps_slots {A} (Q : player -> Prop) (m : M A) : Prop :=
  forall s, Forall Q (players s) -> Forall Q (players (state_of (m s))).

(** ** The client's side of the snapshot ([cmd/client])

    The client keeps one [otherPlayer] per slot.  Its position is a
    vector of float32, each component an int8 of the frame divided by
    [scalingFactor] = 8, a quotient that float32 represents exactly; the
    model keeps the three int8 numerators.  The bounding box, which
    [setOtherPlayerLocation] recomputes from the position alone, is not
    represented. *)
Module Client.
Inductive otherPlayerState := nonExistent | alive | dead.

Record otherPlayer := mkOther {
  killAmount : Z;
  deathAmount : Z;
  position : Z * Z * Z;
  state : otherPlayerState
}.

(** The zero value of the array [otherPlayers]. *)
Definition zero : otherPlayer := mkOther 0 0 (0, 0, 0) nonExistent.

(** The body of the loop for one parcel of another player:
    [setOtherPlayerLocation], then a player seen for the first time
    becomes [otherPlayerState(normal)], which is [alive]. *)
Definition located (pos : Z * Z * Z) (o : otherPlayer) : otherPlayer :=
  mkOther (killAmount o) (deathAmount o) pos
          (match state o with nonExistent => alive | st => st end).

(** The loop [for i := 1; i < len(message); i += 4] over the bytes that
    follow the header.  The parcel of the client's own id is skipped
    before its coordinates are read; for any other id the three
    coordinate bytes and the slot [otherPlayers[id]] must exist, or the
    index panics ([None]). *)
Fixpoint readParcels (self : Z) (bytes : list Z) (others : list otherPlayer)
  : option (list otherPlayer) :=
  match bytes with
  | [] => Some others
  | id :: rest =>
      match rest with
      | bx :: bY :: bz :: rest' =>
          if id =? self then readParcels self rest' others
          else if (0 <=? id) && (id <? maxPlayers) then
            match others !! Z.to_nat id with
            | Some o =>
                readParcels self rest'
                  (<[Z.to_nat id :=
                       located (to_int8 bx, to_int8 bY, to_int8 bz) o]>
                     others)
            | None => None
            end
          else None
      | _ => if id =? self then Some others else None
      end
  end.

(** [case byte(locationHeader)] of [receiveMessages]. *)
Definition handleLocations (self : Z) (message : list Z)
    (others : list otherPlayer) : option (list otherPlayer) :=
  readParcels self (drop 1 message) others.
End Client.

(** What a snapshot parcel of slot [p] does to the client's record [o] of
    that slot, for a client whose own id is [self]. *)
Definition seen (self : Z) (p : player) (o : Client.otherPlayer)
  : Client.otherPlayer :=
  if occupied p && negb (Player.id p =? self)
  then Client.located
         (to_int8 (to_byte (Player.x p)), to_int8 (to_byte (Player.y p)),
          to_int8 (to_byte (Player.z p))) o
  else o.

(** A computation that neither changes the round counter nor broadcasts
    NextRound. *)
Definition quiet {A} (m : M A) : Prop :=
  forall s,
    round (state_of (m s)) = round s
    /\ broadcasts_of nextRoundHeader (output_of (m s)) = [].

(** A computation that is quiet, or adds one to the round counter and
    broadcasts NextRound once. *)
Definition paced {A} (m : M A) : Prop :=
  forall s,
    (round (state_of (m s)) = round s
     /\ broadcasts_of nextRoundHeader (output_of (m s)) = [])
    \/ (round (state_of (m s)) = wrap_int (round s + 1)
        /\ length (broadcasts_of nextRoundHeader (output_of (m s))) = 1%nat).

(** The exit of the process is among the callbacks. *)
Definition has_exit (ts : list (Z * task)) : bool :=
  existsb (fun dt => match snd dt with exitTask => true | _ => false end) ts.

(** A computation that keeps the round counter and does not schedule the
    exit of the process. *)
Definition calm {A} (m : M A) : Prop :=
  forall s,
    round (state_of (m s)) = round s
    /\ has_exit (scheduled (output_of (m s))) = false.

(** The handshake of [serveWs] fills the lobby: the connection is
    admitted and upgraded, [initialisePlayer] returns without an error,
    and the test before the communication loop finds the live count equal
    to the number of players the server waits for. *)
Definition fills_lobby (conn : connId) (upgradeOk : bool) (r : readResult)
    (wok : bool) (s : server) : bool :=
  negb (numPlayers s <=? currentNumPlayers s) && negb (0 <? round s)
  && upgradeOk
  && match initialisePlayer conn r wok s with
     | Ok (_, None) s1 _ => currentNumPlayers s1 =? numPlayers s1
     | _ => false
     end.

(** The step runs [nextRound]: the two call sites of the code are the
    handshake that fills the lobby and the callback scheduled by the hit
    that wipes out a team. *)
Definition runs_nextRound (sys : system) (e : event) : bool :=
  negb (exited sys)
  && match e with
     | Connect c upgradeOk r wok => fills_lobby c upgradeOk r wok (srv sys)
     | Fire n =>
         match timers sys !! n with
         | Some (_, nextRoundTask) => true
         | _ => false
         end
     | Receive _ _ _ | Tick _ => false
     end.
(** * Properties *)

(** ** Machine integers *)

Lemma wrap_int_id (v : Z) : int_min <= v <= int_max -> wrap_int v = v.
Proof.
  unfold int_min, int_max, wrap_int. intros Hv.
  rewrite Z.mod_small; lia.
Qed.

(** ** Equations of the monad *)

Lemma prepend_nil {A} (r : result A) : prepend [] r = r.
Proof. now destruct r. Qed.

Lemma prepend_prepend {A} (o1 o2 : list output) (r : result A) :
  prepend o1 (prepend o2 r) = prepend (o1 ++ o2) r.
Proof. destruct r; simpl; now rewrite app_assoc. Qed.

Lemma bind_ret {A B} (v : A) (k : A -> M B) (s : server) :
  (x <- ret v ;; k x) s = k v s.
Proof. unfold bind, ret. apply prepend_nil. Qed.

Lemma bind_get {A} (k : server -> M A) (s : server) :
  (x <- get ;; k x) s = k s s.
Proof. unfold bind, get. apply prepend_nil. Qed.

Lemma bind_modify {A} (f : server -> server) (k : M A) (s : server) :
  (modify f ;;; k) s = k (f s).
Proof. unfold bind, modify. apply prepend_nil. Qed.

Lemma bind_emit {A} (o : output) (k : M A) (s : server) :
  (emit o ;;; k) s = prepend [o] (k s).
Proof. reflexivity. Qed.

Lemma bind_raise {A B} (e : panic) (k : A -> M B) (s : server) :
  (x <- raise e ;; k x) s = Panicked e s [].
Proof. reflexivity. Qed.

Lemma bind_assoc {A B C} (m : M A) (f : A -> M B) (g : B -> M C) (s : server) :
  (y <- (x <- m ;; f x) ;; g y) s = (x <- m ;; y <- f x ;; g y) s.
Proof.
  unfold bind. destruct (m s) as [v s1 o1|]; [|reflexivity].
  destruct (f v s1) as [w s2 o2|]; simpl; [|reflexivity].
  now rewrite prepend_prepend.
Qed.

(** ** Array accesses *)

Section Access.
Context (s : server) (i : Z) (p : player).
Hypothesis Hrange : 0 <= i < maxPlayers.
Hypothesis Hslot : players s !! Z.to_nat i = Some p.

Lemma player_at_ok : player_at i s = Ok p s [].
Proof.
  unfold player_at.
  replace ((0 <=? i) && (i <? maxPlayers)) with true by lia.
  now rewrite Hslot.
Qed.

Lemma bind_player_at {A} (k : player -> M A) :
  (x <- player_at i ;; k x) s = k p s.
Proof. unfold bind. rewrite player_at_ok. apply prepend_nil. Qed.

Lemma bind_update_player {A} (f : player -> player) (k : M A) :
  (update_player i f ;;; k) s =
  k (set_players (<[Z.to_nat i := f p]> (players s)) s).
Proof.
  unfold update_player. rewrite bind_assoc, bind_player_at.
  now rewrite bind_modify.
Qed.

Lemma update_player_ok (f : player -> player) :
  update_player i f s =
  Ok tt (set_players (<[Z.to_nat i := f p]> (players s)) s) [].
Proof. unfold update_player. now rewrite bind_player_at. Qed.

Lemma lookup_updated (q : player) :
  players (set_players (<[Z.to_nat i := q]> (players s)) s) !! Z.to_nat i
  = Some q.
Proof.
  simpl. apply list_lookup_insert_eq. now apply lookup_lt_Some in Hslot.
Qed.
End Access.

Lemma player_at_out_of_range (s : server) (i : Z) :
  maxPlayers <= i -> player_at i s = Panicked (IndexOutOfRange i) s [].
Proof.
  intros Hi. unfold player_at.
  replace ((0 <=? i) && (i <? maxPlayers)) with false by lia. reflexivity.
Qed.

(** ** The hit handler in closed form *)

Section Hit.
Context (s : server) (newP : player) (wok : bool) (t d : Z)
        (p : player) (c : connId).
Hypothesis Hrange : 0 <= t < maxPlayers.
Hypothesis Hslot : players s !! Z.to_nat t = Some p.
Hypothesis Hconn : Player.conn p = Some c.

Let p1 := Player.set_health (wrap_int (Player.health p - d)) p.
Let s1 := set_players (<[Z.to_nat t := p1]> (players s)) s.
Let s2 :=
  set_players (<[Z.to_nat t := Player.set_isAlive false p1]> (players s1)) s1.
Let w := WriteMessage c [header_byte loseHealthHeader; to_byte d]
           :: (if wok then [] else [LogErr errWrite]).

Lemma handleHit_eq :
  handleHit newP wok [hitMessage; t; d] s =
  if Player.health p1 <? 1 then
    Ok tt s2
       (w ++ Broadcast [header_byte killedHeader; to_byte (Player.id newP);
                        to_byte t]
          :: (if Team.eqb (Player.team p) Team.a && isTeamAAllDead s2
              then teamPoint Team.b
              else if Team.eqb (Player.team p) Team.b && isTeamBAllDead s2
                   then teamPoint Team.a
                   else []))
  else Ok tt s1 w.
Proof.
  assert (H1 : players s1 !! Z.to_nat t = Some p1)
    by (apply lookup_updated with (p := p); assumption).
  assert (H2 : players s2 !! Z.to_nat t = Some (Player.set_isAlive false p1))
    by (apply lookup_updated with (p := p1); assumption).
  unfold handleHit, byte_at. cbn [nth].
  rewrite (bind_update_player s t p Hrange Hslot). fold p1 s1.
  rewrite (bind_player_at s1 t p1 Hrange H1).
  replace (Player.conn p1) with (Some c) by (symmetry; exact Hconn).
  cbn [deref]. rewrite bind_ret.
  unfold write_logged. rewrite bind_assoc, bind_emit.
  assert (Hw : forall (k : M unit),
             ((if wok then ret tt else emit (LogErr errWrite)) ;;; k) s1
             = prepend (if wok then [] else [LogErr errWrite]) (k s1)).
  { intros k. destruct wok; [rewrite bind_ret; now rewrite prepend_nil|].
    apply bind_emit. }
  rewrite Hw, prepend_prepend. clear Hw.
  rewrite (bind_player_at s1 t p1 Hrange H1).
  destruct (Player.health p1 <? 1) eqn:Hh.
  - rewrite (bind_update_player s1 t p1 Hrange H1). fold s2.
    unfold broadcastByteMessage. rewrite bind_emit.
    rewrite (bind_player_at s2 t _ Hrange H2), bind_get.
    cbn [Player.team Player.set_isAlive Player.set_health p1].
    unfold teamPoint, w.
    destruct (Team.eqb (Player.team p) Team.a && isTeamAAllDead s2),
      (Team.eqb (Player.team p) Team.b && isTeamBAllDead s2);
      reflexivity.
  - unfold w, ret, prepend. now rewrite app_nil_r.
Qed.
Lemma loop_body_hit_eq :
  loop_body newP (hit t d) wok s =
  (handleHit newP wok [hitMessage; t; d] ;;; ret Continue) s.
Proof. reflexivity. Qed.

Lemma state_after_hit :
  state_of (loop_body newP (hit t d) wok s) =
  if Player.health p1 <? 1 then s2 else s1.
Proof.
  rewrite loop_body_hit_eq. unfold bind. rewrite handleHit_eq.
  destruct (Player.health p1 <? 1); reflexivity.
Qed.

Lemma output_after_hit :
  output_of (loop_body newP (hit t d) wok s) =
  output_of (handleHit newP wok [hitMessage; t; d] s).
Proof.
  rewrite loop_body_hit_eq. unfold bind. rewrite handleHit_eq.
  destruct (Player.health p1 <? 1); simpl; now rewrite app_nil_r.
Qed.

Lemma hit_does_not_panic :
  panicked (loop_body newP (hit t d) wok s) = false.
Proof.
  rewrite loop_body_hit_eq. unfold bind. rewrite handleHit_eq.
  destruct (Player.health p1 <? 1); reflexivity.
Qed.

Lemma victim_after_hit :
  players (state_of (loop_body newP (hit t d) wok s)) !! Z.to_nat t =
  Some (if Player.health p1 <? 1 then Player.set_isAlive false p1 else p1).
Proof.
  assert (H1 : players s1 !! Z.to_nat t = Some p1)
    by (apply lookup_updated with (p := p); assumption).
  rewrite state_after_hit. destruct (Player.health p1 <? 1); [|exact H1].
  apply lookup_updated with (p := p1); assumption.
Qed.

Lemma others_after_hit (j : nat) :
  j <> Z.to_nat t ->
  players (state_of (loop_body newP (hit t d) wok s)) !! j = players s !! j.
Proof.
  intros Hj. rewrite state_after_hit.
  destruct (Player.health p1 <? 1); simpl;
    repeat rewrite list_lookup_insert_ne by congruence; reflexivity.
Qed.

(** C1 (as the code has it): a Hit on an occupied slot stores
    health - damage, wrapped as a 64-bit int and not clamped at 0; the
    stored value is the exact difference, negative included, whenever that
    difference is representable; the health of the other slots is
    untouched. *)
Theorem hit_health_not_clamped :
  let r := loop_body newP (hit t d) wok s in
  panicked r = false /\
  Player.health <$> players (state_of r) !! Z.to_nat t
    = Some (wrap_int (Player.health p - d)) /\
  (int_min <= Player.health p - d <= int_max ->
   Player.health <$> players (state_of r) !! Z.to_nat t
     = Some (Player.health p - d)) /\
  (forall j : nat, j <> Z.to_nat t ->
     Player.health <$> players (state_of r) !! j
       = Player.health <$> players s !! j).
Proof.
  cbv zeta. split; [apply hit_does_not_panic|].
  assert (Hh : Player.health <$>
                 players (state_of (loop_body newP (hit t d) wok s))
                   !! Z.to_nat t
               = Some (wrap_int (Player.health p - d))).
  { rewrite victim_after_hit. destruct (Player.health p1 <? 1); reflexivity. }
  split; [exact Hh|]. split.
  - intros Hd. rewrite Hh. now rewrite wrap_int_id.
  - intros j Hj. now rewrite others_after_hit.
Qed.

(** C3 (as the code has it): a Hit on an occupied slot emits exactly one
    Killed broadcast (killer = sender, victim = target) when the health it
    leaves is below 1, and none otherwise; in the first case the target is
    marked not-alive.  Whether the target was alive before plays no part:
    a Hit on a target that is already not-alive, its health below 1,
    emits Killed again. *)
Theorem hit_killed_broadcast :
  let r := loop_body newP (hit t d) wok s in
  let h' := wrap_int (Player.health p - d) in
  let killed :=
    Broadcast [header_byte killedHeader; to_byte (Player.id newP); to_byte t]
  in
  broadcasts_of killedHeader (output_of r)
    = (if h' <? 1 then [killed] else []) /\
  (h' < 1 ->
   Player.isAlive <$> players (state_of r) !! Z.to_nat t = Some false) /\
  (Player.isAlive p = false -> Player.health p < 1 -> 0 <= d ->
   int_min <= Player.health p - d ->
   broadcasts_of killedHeader (output_of r) = [killed]).
Proof.
  cbv zeta.
  assert (Hout : broadcasts_of killedHeader
                   (output_of (loop_body newP (hit t d) wok s))
                 = if wrap_int (Player.health p - d) <? 1
                   then [Broadcast [header_byte killedHeader;
                                    to_byte (Player.id newP); to_byte t]]
                   else []).
  { rewrite output_after_hit, handleHit_eq.
    change (Player.health p1) with (wrap_int (Player.health p - d)).
    destruct (wrap_int (Player.health p - d) <? 1); [|now destruct wok].
    destruct (Team.eqb (Player.team p) Team.a && isTeamAAllDead s2),
      (Team.eqb (Player.team p) Team.b && isTeamBAllDead s2), wok;
      reflexivity. }
  split; [exact Hout|]. split.
  - intros Hlt. rewrite victim_after_hit.
    change (Player.health p1) with (wrap_int (Player.health p - d)).
    replace (wrap_int (Player.health p - d) <? 1) with true by lia.
    reflexivity.
  - intros _ Hdead Hd Hmin. rewrite Hout.
    rewrite wrap_int_id by (unfold int_max; lia).
    now replace (Player.health p - d <? 1) with true by lia.
Qed.

(** C4 (as the code has it): a Hit on an occupied slot that leaves the
    target's health below 1 emits exactly one TeamPoint broadcast, naming
    the team opposite to the target's, and schedules [nextRound] after the
    grace delay, when no occupied member of the target's team is alive
    once the target is marked; otherwise the Hit emits no TeamPoint and
    schedules nothing.  The other team's members are not consulted, and
    every such Hit emits its own TeamPoint. *)
Theorem hit_team_point :
  let r := loop_body newP (hit t d) wok s in
  let wiped :=
    (wrap_int (Player.health p - d) <? 1)
    && teamAllDead (Player.team p) (state_of r) in
  broadcasts_of teamPointHeader (output_of r)
    = (if wiped
       then [Broadcast [header_byte teamPointHeader;
                        Team.byte (other (Player.team p))]]
       else []) /\
  scheduled (output_of r)
    = (if wiped then [(roundEndGraceTime, nextRoundTask)] else []).
Proof.
  cbv zeta. rewrite state_after_hit, output_after_hit, handleHit_eq.
  change (Player.health p1) with (wrap_int (Player.health p - d)).
  destruct (wrap_int (Player.health p - d) <? 1); [|now destruct wok].
  cbn [andb]. destruct (Player.team p); cbn [Team.eqb andb teamAllDead other].
  - destruct (isTeamAAllDead s2), wok; split; reflexivity.
  - destruct (isTeamBAllDead s2), wok; split; reflexivity.
Qed.

End Hit.

(** ** The round counter *)

Lemma state_of_prepend {A} (o : list output) (r : result A) :
  state_of (prepend o r) = state_of r.
Proof. now destruct r. Qed.

Lemma output_of_prepend {A} (o : list output) (r : result A) :
  output_of (prepend o r) = o ++ output_of r.
Proof. now destruct r. Qed.

Lemma panicked_prepend {A} (o : list output) (r : result A) :
  panicked (prepend o r) = panicked r.
Proof. now destruct r. Qed.

Section NextRound.
Context (s : server).

Let s' :=
  set_round (wrap_int (round s + 1))
    (set_players (resetPlayers (players s)) s).

Lemma nextRound_eq :
  nextRound s =
  Ok tt s'
     ((if round s =? lastRound
       then [AfterFunc afterGameLingerTime exitTask] else [])
        ++ [Broadcast [header_byte nextRoundHeader];
            AfterFunc roundStartGraceTime playTask]).
Proof.
  unfold nextRound. rewrite bind_get.
  destruct (round s =? lastRound); reflexivity.
Qed.

Lemma round_after_nextRound :
  round (state_of (nextRound s)) = wrap_int (round s + 1).
Proof. now rewrite nextRound_eq. Qed.
End NextRound.

Lemma keeps_round_bind {A B} (m : M A) (k : A -> M B) :
  keeps_round m -> (forall v, keeps_round (k v)) -> keeps_round (bind m k).
Proof.
  intros Hm Hk s. unfold bind. specialize (Hm s).
  destruct (m s) as [v s1 o1|]; [|exact Hm].
  rewrite state_of_prepend, Hk. exact Hm.
Qed.

Lemma advances_round_bind {A B} (m : M A) (k : A -> M B) :
  keeps_round m -> (forall v, advances_round (k v)) ->
  advances_round (bind m k).
Proof.
  intros Hm Hk s. unfold bind. specialize (Hm s).
  destruct (m s) as [v s1 o1|]; [|now left].
  rewrite state_of_prepend. simpl in Hm. rewrite <- Hm. apply Hk.
Qed.

Lemma keeps_advances {A} (m : M A) : keeps_round m -> advances_round m.
Proof. intros H s. left. apply H. Qed.

Lemma keeps_round_ret {A} (v : A) : keeps_round (ret v).
Proof. now intros s. Qed.

Lemma keeps_round_get : keeps_round get.
Proof. now intros s. Qed.

Lemma keeps_round_emit (o : output) : keeps_round (emit o).
Proof. now intros s. Qed.

Lemma keeps_round_raise {A} (e : panic) : keeps_round (@raise A e).
Proof. now intros s. Qed.

Lemma keeps_round_modify (f : server -> server) :
  (forall s, round (f s) = round s) -> keeps_round (modify f).
Proof. intros H s. apply H. Qed.

Lemma keeps_round_player_at (i : Z) : keeps_round (player_at i).
Proof.
  intros s. unfold player_at.
  destruct ((0 <=? i) && (i <? maxPlayers)); [|reflexivity].
  now destruct (players s !! Z.to_nat i).
Qed.

Create HintDb round_db.
#[local] Hint Resolve keeps_round_ret keeps_round_get keeps_round_emit
  keeps_round_raise keeps_round_player_at : round_db.

(** Walks through a handler, bind by bind and branch by branch. *)
Ltac keeps_round_tac :=
  repeat first
    [ progress auto with round_db
    | apply keeps_round_bind; [|intros ?]
    | apply keeps_round_modify; intros ?; reflexivity
    | match goal with
      | |- keeps_round (if ?c then _ else _) => destruct c
      | |- keeps_round (match ?c with _ => _ end) => destruct c
      end ].

Lemma keeps_round_update_player (i : Z) (f : player -> player) :
  keeps_round (update_player i f).
Proof. unfold update_player. keeps_round_tac. Qed.

Lemma keeps_round_deref (c : option connId) : keeps_round (deref c).
Proof. unfold deref. keeps_round_tac. Qed.

Lemma keeps_round_write_logged (c : connId) (m : list Z) (wok : bool) :
  keeps_round (write_logged c m wok).
Proof. unfold write_logged. keeps_round_tac. Qed.

Lemma keeps_round_broadcast (m : list Z) :
  keeps_round (broadcastByteMessage m).
Proof. unfold broadcastByteMessage. keeps_round_tac. Qed.

#[local] Hint Resolve keeps_round_update_player keeps_round_deref
  keeps_round_write_logged keeps_round_broadcast : round_db.

Lemma keeps_round_handleHit (newP : player) (wok : bool) (m : list Z) :
  keeps_round (handleHit newP wok m).
Proof. unfold handleHit. keeps_round_tac. Qed.

Lemma keeps_round_handleLocation (newP : player) (m : list Z) :
  keeps_round (handleLocation newP m).
Proof. unfold handleLocation. keeps_round_tac. Qed.

#[local] Hint Resolve keeps_round_handleHit keeps_round_handleLocation
  : round_db.

Lemma keeps_round_dispatch (newP : player) (wok : bool) (m : list Z) :
  keeps_round (dispatch newP wok m).
Proof. unfold dispatch. keeps_round_tac. Qed.

#[local] Hint Resolve keeps_round_dispatch : round_db.

Lemma keeps_round_loop_body (newP : player) (r : readResult) (wok : bool) :
  keeps_round (loop_body newP r wok).
Proof. unfold loop_body. keeps_round_tac. Qed.

Lemma keeps_round_disconnect (newP : player) : keeps_round (disconnect newP).
Proof. unfold disconnect. keeps_round_tac. Qed.

Lemma keeps_round_initialisePlayer (c : connId) (r : readResult) (wok : bool) :
  keeps_round (initialisePlayer c r wok).
Proof. unfold initialisePlayer. keeps_round_tac. Qed.

#[local] Hint Resolve keeps_round_loop_body keeps_round_disconnect
  keeps_round_initialisePlayer : round_db.

Lemma advances_round_nextRound : advances_round nextRound.
Proof. intros s. right. apply round_after_nextRound. Qed.

Lemma advances_round_serveWs_enter
    (c : connId) (upgradeOk : bool) (r : readResult) (wok : bool) :
  advances_round (serveWs_enter c upgradeOk r wok).
Proof.
  unfold serveWs_enter.
  apply advances_round_bind; [auto with round_db|]. intros s0.
  destruct (numPlayers s0 <=? currentNumPlayers s0);
    [apply keeps_advances; keeps_round_tac|].
  destruct (0 <? round s0); [apply keeps_advances; keeps_round_tac|].
  destruct (negb upgradeOk); [apply keeps_advances; keeps_round_tac|].
  apply advances_round_bind; [auto with round_db|]. intros res.
  destruct (snd res); [apply keeps_advances; keeps_round_tac|].
  apply advances_round_bind; [auto with round_db|]. intros s1.
  destruct (currentNumPlayers s1 =? numPlayers s1).
  - intros s2. unfold bind.
    destruct (advances_round_nextRound s2) as [H|H];
      destruct (nextRound s2); simpl in *; auto.
  - apply keeps_advances; keeps_round_tac.
Qed.

(** Every step of the process leaves the round counter alone or adds one
    to it. *)
Lemma step_round (sys : system) (e : event) :
  round (srv (fst (step sys e))) = round (srv sys)
  \/ round (srv (fst (step sys e))) = wrap_int (round (srv sys) + 1).
Proof.
  unfold step. destruct (exited sys); [now left|].
  destruct e as [c u r wok|c r wok|n|wok].
  - pose proof (advances_round_serveWs_enter c u r wok (srv sys)) as H.
    destruct (serveWs_enter c u r wok (srv sys)) as [[p|] s1 o|e s1 o];
      exact H.
  - destruct (find_loop c (loops sys)) as [p|]; [|now left].
    assert (Hk : keeps_round
                   (ctl <- loop_body p r wok ;;
                    match ctl with
                    | Continue => ret Continue
                    | Break => disconnect p ;;; ret Break
                    end)) by keeps_round_tac.
    specialize (Hk (srv sys)). left.
    destruct ((ctl <- loop_body p r wok ;;
               match ctl with
               | Continue => ret Continue
               | Break => disconnect p ;;; ret Break
               end) (srv sys)) as [[|] s1 o|e s1 o]; exact Hk.
  - destruct (timers sys !! n) as [[dl t]|]; [|now left].
    destruct t; simpl.
    + pose proof (advances_round_nextRound (srv sys)) as H.
      destruct (nextRound (srv sys)); exact H.
    + now left.
    + now left.
  - now left.
Qed.

Lemma exec_cons (sys : system) (e : event) (es : list event) :
  exec sys (e :: es) =
  (fst (exec (fst (step sys e)) es),
   snd (step sys e) ++ snd (exec (fst (step sys e)) es)).
Proof.
  cbn [exec]. destruct (step sys e) as [sys1 out1]. cbn [fst snd].
  now destruct (exec sys1 es) as [sys2 out2].
Qed.

(** The counter starts at 0 and needs one event for every increment: a
    run of [n] events cannot make it wrap. *)
Lemma exec_round_bound (es : list event) :
  forall sys : system,
    0 <= round (srv sys) ->
    round (srv sys) + Z.of_nat (length es) <= int_max ->
    0 <= round (srv (fst (exec sys es)))
      <= round (srv sys) + Z.of_nat (length es).
Proof.
  induction es as [|e es IH]; intros sys H0 Hmax.
  - simpl in *. lia.
  - rewrite exec_cons. cbn [fst]. cbn [length] in Hmax |- *.
    assert (Hstep : round (srv sys) <= round (srv (fst (step sys e)))
                    <= round (srv sys) + 1).
    { destruct (step_round sys e) as [H|H]; rewrite H; [lia|].
      rewrite wrap_int_id; unfold int_min, int_max in *; lia. }
    specialize (IH (fst (step sys e))). lia.
Qed.

(** ** Which steps change the round counter *)

Lemma broadcasts_of_app (h : messageHeaders) (o1 o2 : list output) :
  broadcasts_of h (o1 ++ o2) = broadcasts_of h o1 ++ broadcasts_of h o2.
Proof. apply List.filter_app. Qed.

Lemma quiet_bind {A B} (m : M A) (k : A -> M B) :
  quiet m -> (forall v, quiet (k v)) -> quiet (bind m k).
Proof.
  intros Hm Hk s. unfold bind. destruct (Hm s) as [Hr Ho].
  destruct (m s) as [v s1 o1|]; [|now split].
  destruct (Hk v s1) as [Hr' Ho'].
  rewrite state_of_prepend, output_of_prepend, broadcasts_of_app.
  cbn [state_of output_of] in Hr, Ho. rewrite Ho, Ho', Hr', Hr. now split.
Qed.

Lemma paced_bind_l {A B} (m : M A) (k : A -> M B) :
  quiet m -> (forall v, paced (k v)) -> paced (bind m k).
Proof.
  intros Hm Hk s. unfold bind. destruct (Hm s) as [Hr Ho].
  destruct (m s) as [v s1 o1|]; [|left; now split].
  rewrite state_of_prepend, output_of_prepend, broadcasts_of_app.
  cbn [state_of output_of] in Hr, Ho. rewrite Ho, <- Hr. apply Hk.
Qed.

Lemma paced_bind_r {A B} (m : M A) (k : A -> M B) :
  paced m -> (forall v, quiet (k v)) -> paced (bind m k).
Proof.
  intros Hm Hk s. unfold bind. specialize (Hm s).
  destruct (m s) as [v s1 o1|]; [|exact Hm].
  destruct (Hk v s1) as [Hr' Ho'].
  rewrite state_of_prepend, output_of_prepend, broadcasts_of_app.
  rewrite Ho', Hr', app_nil_r. exact Hm.
Qed.

Lemma quiet_paced {A} (m : M A) : quiet m -> paced m.
Proof. intros H s. left. apply H. Qed.

Lemma quiet_same {A} (m : M A) :
  (forall s, state_of (m s) = s /\ output_of (m s) = []) -> quiet m.
Proof. intros H s. destruct (H s) as [-> ->]. now split. Qed.

Lemma quiet_emit (o : output) :
  is_broadcast_of nextRoundHeader o = false -> quiet (emit o).
Proof. intros H s. cbn. now rewrite H. Qed.

Lemma quiet_player_at (i : Z) : quiet (player_at i).
Proof.
  intros s. unfold player_at.
  destruct ((0 <=? i) && (i <? maxPlayers)); [|now split].
  destruct (players s !! Z.to_nat i); now split.
Qed.

Lemma quiet_modify (f : server -> server) :
  (forall s, round (f s) = round s) -> quiet (modify f).
Proof. intros H s. cbn. now split. Qed.

(** Walks through a handler that does not run [nextRound]. *)
Ltac quiet_tac :=
  repeat first
    [ apply quiet_player_at
    | apply quiet_emit; reflexivity
    | apply quiet_modify; intros ?; reflexivity
    | apply quiet_same; intros ?; split; reflexivity
    | apply quiet_bind; [|intros ?]
    | match goal with
      | |- quiet (if ?c then _ else _) => destruct c
      | |- quiet (match ?c with _ => _ end) => destruct c
      end ].

Lemma quiet_loop_body (newP : player) (r : readResult) (wok : bool) :
  quiet (loop_body newP r wok).
Proof.
  unfold loop_body, dispatch, handleHit, handleLocation, update_player,
    write_logged, deref, broadcastByteMessage, ret, raise.
  quiet_tac.
Qed.

Lemma quiet_disconnect (newP : player) : quiet (disconnect newP).
Proof.
  unfold disconnect, update_player, broadcastByteMessage. quiet_tac.
Qed.

Lemma quiet_initialisePlayer (c : connId) (r : readResult) (wok : bool) :
  quiet (initialisePlayer c r wok).
Proof. unfold initialisePlayer, update_player, ret. quiet_tac. Qed.

Lemma bind_ok {A B} (m : M A) (k : A -> M B) (s s1 : server)
    (v : A) (o1 : list output) :
  m s = Ok v s1 o1 -> bind m k s = prepend o1 (k v s1).
Proof. intros H. unfold bind. now rewrite H. Qed.

Lemma bind_panicked {A B} (m : M A) (k : A -> M B) (s s1 : server)
    (e : panic) (o1 : list output) :
  m s = Panicked e s1 o1 -> bind m k s = Panicked e s1 o1.
Proof. intros H. unfold bind. now rewrite H. Qed.

(** The handshake changes the round counter exactly when it fills the
    lobby, and then by the one [nextRound] it runs. *)
Lemma serveWs_enter_round
    (c : connId) (u : bool) (r : readResult) (wok : bool) (s : server) :
  round (state_of (serveWs_enter c u r wok s))
  = (if fills_lobby c u r wok s then wrap_int (round s + 1) else round s)
  /\ broadcasts_of nextRoundHeader (output_of (serveWs_enter c u r wok s))
     = (if fills_lobby c u r wok s
        then [Broadcast [header_byte nextRoundHeader]] else []).
Proof.
  unfold serveWs_enter, fills_lobby. rewrite bind_get.
  destruct (numPlayers s <=? currentNumPlayers s); [now split|].
  destruct (0 <? round s); [now split|].
  destruct u; [|now split]. cbn [negb andb].
  destruct (quiet_initialisePlayer c r wok s) as [Hr Ho].
  destruct (initialisePlayer c r wok s) as [[q [e|]] s1 o1|e s1 o1] eqn:Hi;
    [rewrite (bind_ok _ _ _ _ _ _ Hi) ..
    | rewrite (bind_panicked _ _ _ _ _ _ Hi)];
    cbn [state_of output_of snd fst] in *.
  - rewrite state_of_prepend, output_of_prepend, broadcasts_of_app, Ho.
    now split.
  - rewrite state_of_prepend, output_of_prepend, broadcasts_of_app, Ho.
    rewrite bind_get.
    destruct (currentNumPlayers s1 =? numPlayers s1).
    + unfold bind. rewrite nextRound_eq. cbn. rewrite Hr.
      split; [reflexivity|]. now destruct (round s =? lastRound).
    + cbn. now split.
  - now split.
Qed.

(** A step changes the round counter exactly when it runs [nextRound],
    and broadcasts NextRound exactly then. *)
Lemma step_round_exact (sys : system) (e : event) :
  round (srv (fst (step sys e)))
  = (if runs_nextRound sys e
     then wrap_int (round (srv sys) + 1) else round (srv sys))
  /\ broadcasts_of nextRoundHeader (snd (step sys e))
     = (if runs_nextRound sys e
        then [Broadcast [header_byte nextRoundHeader]] else []).
Proof.
  unfold step, runs_nextRound.
  destruct (exited sys); [now split|]. cbn [negb andb].
  destruct e as [c u r wok|c r wok|k|wok].
  - pose proof (serveWs_enter_round c u r wok (srv sys)) as H.
    destruct (serveWs_enter c u r wok (srv sys)) as [[p|] s1 o|e s1 o];
      exact H.
  - destruct (find_loop c (loops sys)) as [p|]; [|now split].
    assert (Hk : quiet (ctl <- loop_body p r wok ;;
                        match ctl with
                        | Continue => ret Continue
                        | Break => disconnect p ;;; ret Break
                        end)).
    { apply quiet_bind; [apply quiet_loop_body|].
      intros [|]; [unfold ret; quiet_tac|].
      apply quiet_bind; [apply quiet_disconnect|].
      intros _. unfold ret. quiet_tac. }
    specialize (Hk (srv sys)).
    destruct ((ctl <- loop_body p r wok ;;
               match ctl with
               | Continue => ret Continue
               | Break => disconnect p ;;; ret Break
               end) (srv sys)) as [[|] s1 o|e s1 o]; exact Hk.
  - destruct (timers sys !! k) as [[dl t]|]; [|now split].
    destruct t; cbn [run_task].
    + rewrite nextRound_eq. cbn [fst snd srv].
      split; [reflexivity|]. now destruct (round (srv sys) =? lastRound).
    + now split.
    + now split.
  - split; [reflexivity|]. cbn [snd]. unfold run_tick.
    destruct (round (srv sys) =? 0); [reflexivity|].
    unfold fanout, broadcasts_of.
    induction (players (srv sys)) as [|p ps IH]; [reflexivity|].
    cbn [flat_map]. rewrite List.filter_app, IH, app_nil_r.
    destruct (Player.conn p) as [c|]; [|reflexivity].
    now destruct (wok c).
Qed.

(** C2 (as the code has it): a round transition adds exactly 1 to the
    counter (short of the largest int), resets every slot, and always
    emits the NextRound broadcast and the timer of Play; started with the
    counter at 10 it also schedules the exit of the process after the
    linger delay, before the same broadcast and increment.  No other step
    of the process changes the counter: a step changes it, by the one
    [nextRound] it runs, exactly when it is the handshake that fills the
    lobby or the firing of a next-round callback, and these are the only
    steps that broadcast NextRound; no message, read error, close,
    cleanup, refused or failed handshake, Play or exit callback or tick
    of the broadcaster changes it. *)
Theorem nextRound_transition (s : server) :
  int_min <= round s < int_max ->
  let r := nextRound s in
  panicked r = false /\
  round (state_of r) = round s + 1 /\
  players (state_of r) = resetPlayers (players s) /\
  output_of r
    = (if round s =? lastRound
       then [AfterFunc afterGameLingerTime exitTask] else [])
        ++ [Broadcast [header_byte nextRoundHeader];
            AfterFunc roundStartGraceTime playTask] /\
  (forall (sys : system) (e : event),
     round (srv (fst (step sys e)))
     = (if runs_nextRound sys e
        then wrap_int (round (srv sys) + 1) else round (srv sys))
     /\ broadcasts_of nextRoundHeader (snd (step sys e))
        = (if runs_nextRound sys e
           then [Broadcast [header_byte nextRoundHeader]] else [])) /\
  (forall (sys : system) (c : connId) (rd : readResult) (wok : bool)
          (k : nat) (d : Z) (w : connId -> bool),
     runs_nextRound sys (Receive c rd wok) = false
     /\ runs_nextRound sys (Tick w) = false
     /\ (timers sys !! k = Some (d, playTask) ->
         runs_nextRound sys (Fire k) = false)
     /\ (timers sys !! k = Some (d, exitTask) ->
         runs_nextRound sys (Fire k) = false)
     /\ (timers sys !! k = None -> runs_nextRound sys (Fire k) = false)).
Proof.
  intros Hr. cbv zeta. rewrite nextRound_eq. cbn [panicked state_of output_of].
  split; [reflexivity|]. split.
  { simpl. apply wrap_int_id. unfold int_min, int_max in *. lia. }
  split; [reflexivity|]. split; [reflexivity|]. split.
  - intros sys e. apply step_round_exact.
  - intros sys c rd wok k d w. unfold runs_nextRound.
    repeat split; try (now destruct (exited sys));
      intros ->; now destruct (exited sys).
Qed.

Lemma nextRound_transition_witness :
  int_min <= round (srv duel_last_round) < int_max /\
  round (state_of (nextRound (srv duel_last_round))) = 11 /\
  output_of (nextRound (srv duel_last_round))
    = [AfterFunc 2 exitTask; Broadcast [0]; AfterFunc 8 playTask].
Proof.
  assert (H : int_min <= round (srv duel_last_round) < int_max)
    by (vm_compute; split; [discriminate | reflexivity]).
  split; [exact H|].
  pose proof (nextRound_transition (srv duel_last_round) H) as T.
  split; [exact (proj1 (proj2 T)) | exact (proj1 (proj2 (proj2 (proj2 T))))].
Defined.

(** C2, refuted as stated: in the tenth round of a two-player game the
    transition that ends the round broadcasts NextRound once more and
    takes the counter to 11; the process has not exited. *)
Lemma round_exceeds_last_round :
  round (srv duel_last_round) = lastRound /\
  lastRound < round (srv (fst (step duel_last_round (Fire 0)))) /\
  In (Broadcast [header_byte nextRoundHeader])
     (snd (step duel_last_round (Fire 0))) /\
  exited (fst (step duel_last_round (Fire 0))) = false.
Proof. vm_compute. repeat split; auto. Qed.

(** ** Location snapshots *)

Lemma writeLocations_eq (ps : list player) :
  forall buf : list Z,
    writeLocations ps buf
    = buf ++ concat (map parcel (List.filter occupied ps)).
Proof.
  induction ps as [|p ps IH]; intros buf; cbn [writeLocations List.filter].
  - cbn. now rewrite app_nil_r.
  - unfold occupied at 1. destruct (isEmpty p); cbn [negb].
    + apply IH.
    + rewrite IH. cbn [map concat]. now rewrite <- app_assoc.
Qed.

Lemma length_parcels (ps : list player) :
  length (concat (map parcel ps)) = (4 * length ps)%nat.
Proof.
  induction ps as [|p ps IH]; [reflexivity|].
  cbn [map concat]. rewrite length_app, IH. cbn [parcel length]. lia.
Qed.

Lemma fanout_writes (wok : connId -> bool) (frame : list Z) (ps : list player) :
  forall (c : connId) (m : list Z),
    In (WriteMessage c m) (fanout wok frame ps) ->
    m = frame /\ exists p, In p ps /\ Player.conn p = Some c.
Proof.
  intros c m Hin. unfold fanout in Hin.
  apply in_flat_map in Hin as [p [Hp Hin]].
  destruct (Player.conn p) as [k|] eqn:Hk; [|contradiction].
  destruct Hin as [Heq|Hin].
  - injection Heq as -> ->. split; [reflexivity|]. now exists p.
  - destruct (wok k); [contradiction|].
    destruct Hin as [Heq|[]]. discriminate.
Qed.

(** C8: in every state the process reaches (by a run short enough for
    the counter not to wrap) the round counter is not negative; the ticker
    writes nothing while it is 0, so a snapshot is only ever written when
    round > 0; every frame it writes is the serialised snapshot, which is
    the Locations header byte followed by the four-byte parcel of each
    occupied slot, in slot order, and nothing for the empty slots. *)
Theorem snapshot_only_in_rounds
    (n : Z) (es : list event) (wok : connId -> bool) :
  Z.of_nat (length es) <= int_max ->
  let s := srv (fst (exec (boot n) es)) in
  0 <= round s /\
  (round s = 0 -> run_tick wok s = []) /\
  (forall (c : connId) (m : list Z),
     In (WriteMessage c m) (run_tick wok s) ->
     0 < round s /\ m = serialiseLocations s
     /\ exists p, In p (players s) /\ Player.conn p = Some c) /\
  serialiseLocations s
    = header_byte locationsHeader
        :: concat (map parcel (List.filter occupied (players s))) /\
  length (serialiseLocations s)
    = (1 + 4 * length (List.filter occupied (players s)))%nat.
Proof.
  intros Hlen. cbv zeta.
  set (s := srv (fst (exec (boot n) es))).
  assert (Hround : 0 <= round s).
  { pose proof (exec_round_bound es (boot n)) as H. cbn in H.
    apply H; lia. }
  assert (Hframe : serialiseLocations s
                   = header_byte locationsHeader
                       :: concat (map parcel (List.filter occupied (players s))))
    by (unfold serialiseLocations; now rewrite writeLocations_eq).
  split; [exact Hround|]. split; [|split; [|split]].
  - intros H0. unfold run_tick. now rewrite H0.
  - intros c m Hin. unfold run_tick in Hin.
    destruct (round s =? 0) eqn:H0; [contradiction|].
    apply fanout_writes in Hin as [-> Hp]. repeat split; [lia|exact Hp].
  - exact Hframe.
  - rewrite Hframe. cbn [length]. now rewrite length_parcels.
Qed.

Lemma snapshot_only_in_rounds_witness :
  Z.of_nat (length located_events) <= int_max /\
  serialiseLocations (srv (fst (exec (boot 2) located_events)))
  = [2; 0; 0; 0; 0; 3; 8; 0; 250].
Proof.
  assert (H : Z.of_nat (length located_events) <= int_max)
    by (vm_compute; discriminate).
  split; [exact H|].
  exact (proj1 (proj2 (proj2 (proj2
           (snapshot_only_in_rounds 2 located_events (fun _ => true) H))))).
Defined.

(** ** Hits: instances and refutations *)

(** C1, refuted as stated: two hits of damage 2 on a player of health 3
    leave -1 in the slot. *)
Lemma health_goes_negative :
  ~ Forall (fun p => 0 <= Player.health p)
      (players (srv (fst (exec duel_playing
                           [Receive 10%nat (hit 3 2) true;
                            Receive 10%nat (hit 3 2) true])))).
Proof.
  intros H.
  apply (Forall_lookup_1 _ _ 3%nat (Player.mk 3 (-1) Team.b (Some 11%nat)
                                      false 0 0 0)) in H.
  - simpl in H. lia.
  - vm_compute. reflexivity.
Qed.

Lemma hit_health_not_clamped_witness :
  0 <= 3 < maxPlayers /\
  Player.health <$>
    players (state_of (loop_body player0 (hit 3 5) true (srv duel_playing)))
      !! 3%nat
  = Some (-2).
Proof.
  assert (Hr : 0 <= 3 < maxPlayers) by (unfold maxPlayers; lia).
  split; [exact Hr|].
  exact (proj1 (proj2
           (hit_health_not_clamped (srv duel_playing) player0 true 3 5
              (Player.mk 3 3 Team.b (Some 11%nat) true 0 0 0) 11%nat
              Hr eq_refl eq_refl))).
Defined.

(** C3, refuted as stated: player 3 is eliminated by a first hit and is
    not-alive when a second hit on him arrives in the same round; both
    hits emit Killed(0,3). *)
Lemma killed_broadcast_repeats :
  let first := step duel_playing (Receive 10%nat (hit 3 3) true) in
  let second := step (fst first) (Receive 10%nat (hit 3 1) true) in
  Player.isAlive <$> players (srv (fst first)) !! 3%nat = Some false /\
  round (srv (fst second)) = round (srv duel_playing) /\
  broadcasts_of killedHeader (snd first) = [Broadcast [4; 0; 3]] /\
  broadcasts_of killedHeader (snd second) = [Broadcast [4; 0; 3]].
Proof. vm_compute. repeat split; reflexivity. Qed.

Lemma hit_killed_broadcast_witness :
  0 <= 3 < maxPlayers /\
  broadcasts_of killedHeader
    (output_of (loop_body player0 (hit 3 3) true (srv duel_playing)))
  = [Broadcast [4; 0; 3]].
Proof.
  assert (Hr : 0 <= 3 < maxPlayers) by (unfold maxPlayers; lia).
  split; [exact Hr|].
  exact (proj1
           (hit_killed_broadcast (srv duel_playing) player0 true 3 3
              (Player.mk 3 3 Team.b (Some 11%nat) true 0 0 0) 11%nat
              Hr eq_refl eq_refl)).
Defined.

(** C4, refuted as stated: team b's only member is eliminated while
    player 0 of team a lives; a second hit on the victim arrives before
    the round ends, and two TeamPoint broadcasts precede the NextRound
    broadcast. *)
Lemma team_point_repeats :
  let first := step duel_playing (Receive 10%nat (hit 3 3) true) in
  let run :=
    exec duel_playing
      [Receive 10%nat (hit 3 3) true; Receive 10%nat (hit 3 1) true;
       Fire 0; Fire 0] in
  isTeamBAllDead (srv (fst first)) = true /\
  someAlive (take (Z.to_nat maxTeamPlayers) (players (srv (fst first))))
    = true /\
  broadcasts_of nextRoundHeader (snd run) <> [] /\
  broadcasts_of teamPointHeader (until_nextRound (snd run))
    = [Broadcast [5; 0]; Broadcast [5; 0]].
Proof. vm_compute. repeat split; (reflexivity || discriminate). Qed.

Lemma hit_team_point_witness :
  0 <= 3 < maxPlayers /\
  broadcasts_of teamPointHeader
    (output_of (loop_body player0 (hit 3 3) true (srv duel_playing)))
  = [Broadcast [5; 0]].
Proof.
  assert (Hr : 0 <= 3 < maxPlayers) by (unfold maxPlayers; lia).
  split; [exact Hr|].
  exact (proj1
           (hit_team_point (srv duel_playing) player0 true 3 3
              (Player.mk 3 3 Team.b (Some 11%nat) true 0 0 0) 11%nat
              Hr eq_refl eq_refl)).
Defined.

(** ** Malformed messages and the end of a connection *)

(** C7 (as the code has it): an empty message, a Hit that is not three
    bytes long, a Location that is not four bytes long and a message of
    unknown kind are logged and dropped: the server is left as it was,
    nothing but the log line is emitted, and the loop goes on.  A Shot is
    not checked for length: it is broadcast whatever follows its kind
    byte. *)
Theorem refused_message_dropped
    (s : server) (newP : player) (wok : bool) (m : list Z) :
  (refused m = true ->
   exists line : string,
     loop_body newP (ReadMessage m) wok s = Ok Continue s [Log line]) /\
  (forall rest : list Z,
     m = shotMessage :: rest ->
     loop_body newP (ReadMessage m) wok s
     = Ok Continue s
          [Broadcast [header_byte shotHeader; to_byte (Player.id newP)]]).
Proof.
  split.
  - destruct m as [|kind rest]; intros Href.
    + eexists. reflexivity.
    + unfold loop_body. cbn [length Nat.eqb]. unfold dispatch, byte_at.
      cbn [nth]. cbn [refused] in Href.
      destruct (kind =? hitMessage).
      { rewrite Href. eexists. reflexivity. }
      destruct (kind =? shotMessage); [discriminate|].
      destruct (kind =? locationMessage).
      { rewrite Href. eexists. reflexivity. }
      eexists. reflexivity.
  - intros rest ->. reflexivity.
Qed.

Lemma refused_message_dropped_witness :
  refused [hitMessage; 3] = true /\
  exists line : string,
    loop_body player0 (ReadMessage [hitMessage; 3]) true (srv duel_playing)
    = Ok Continue (srv duel_playing) [Log line].
Proof.
  split; [reflexivity|].
  exact (proj1 (refused_message_dropped (srv duel_playing) player0 true
                  [hitMessage; 3]) eq_refl).
Defined.

(** C7, refuted as stated: a Shot message with a byte of payload, which
    the protocol does not provide for, is not dropped but broadcast. *)
Lemma overlong_shot_is_broadcast :
  step duel_playing (Receive 10%nat (ReadMessage [shotMessage; 9]) true)
  = (duel_playing, [Broadcast [header_byte shotHeader; 0]]).
Proof. vm_compute. reflexivity. Qed.

Section Disconnect.
Context (sys : system) (c : connId) (p q : player) (wok : bool).
Hypothesis Hrunning : exited sys = false.
Hypothesis Hloop : find_loop c (loops sys) = Some p.
Hypothesis Hrange : 0 <= Player.id p < maxPlayers.
Hypothesis Hslot : players (srv sys) !! Z.to_nat (Player.id p) = Some q.

Lemma disconnect_eq :
  disconnect p (srv sys) =
  Ok tt
     (set_currentNumPlayers (wrap_int (currentNumPlayers (srv sys) - 1))
        (set_players
           (<[Z.to_nat (Player.id p) := Player.zero]> (players (srv sys)))
           (srv sys)))
     [Broadcast [header_byte playerDisconnectHeader; to_byte (Player.id p)]].
Proof.
  unfold disconnect.
  rewrite (bind_update_player (srv sys) _ q Hrange Hslot).
  now rewrite bind_modify.
Qed.

(** C6 (as the code has it): a graceful close (normal closure or going
    away) ends the receive loop, resets the slot to the empty slot,
    decrements the live count and broadcasts PlayerDisconnect with the
    vacated id.  Any other read error is logged and the loop goes on: the
    slot, the count and the loop are as before, and nothing is
    broadcast. *)
Theorem close_cleans_up_error_does_not :
  step sys (Receive c ReadClose wok)
  = (mkSystem
       (set_currentNumPlayers (wrap_int (currentNumPlayers (srv sys) - 1))
          (set_players
             (<[Z.to_nat (Player.id p) := Player.zero]> (players (srv sys)))
             (srv sys)))
       (timers sys) (remove_loop c (loops sys)) false,
     [Broadcast [header_byte playerDisconnectHeader; to_byte (Player.id p)]])
  /\
  step sys (Receive c ReadError wok) = (sys, [LogErr errRead]).
Proof.
  unfold step. rewrite Hrunning, Hloop. split.
  - cbn [loop_body]. rewrite bind_ret.
    unfold bind at 1. rewrite disconnect_eq. cbn. now rewrite app_nil_r.
  - destruct sys as [s0 ts ls ex]. cbn in *. subst ex.
    now rewrite app_nil_r.
Qed.
End Disconnect.

Lemma close_cleans_up_error_does_not_witness :
  exited duel_playing = false /\
  0 <= Player.id player3 < maxPlayers /\
  currentNumPlayers
    (srv (fst (step duel_playing (Receive 11%nat ReadClose true)))) = 1 /\
  snd (step duel_playing (Receive 11%nat ReadClose true))
  = [Broadcast [7; 3]].
Proof.
  assert (Hr : 0 <= Player.id player3 < maxPlayers)
    by (vm_compute; split; [discriminate | reflexivity]).
  split; [reflexivity|]. split; [exact Hr|].
  pose proof (proj1 (close_cleans_up_error_does_not duel_playing 11%nat
                       player3
                       (Player.mk 3 3 Team.b (Some 11%nat) true 0 0 0) true
                       eq_refl eq_refl Hr eq_refl)) as H.
  split; [exact (f_equal (fun r => currentNumPlayers (srv (fst r))) H)
         | exact (f_equal snd H)].
Defined.

(** C6, refuted as stated: after a read error that is not a close, the
    connection's loop is still running, its slot is still occupied, the
    live count is unchanged and no PlayerDisconnect is broadcast. *)
Lemma read_error_skips_cleanup :
  let after := step duel_playing (Receive 11%nat ReadError true) in
  find_loop 11%nat (loops (fst after)) = Some player3 /\
  Player.conn <$> players (srv (fst after)) !! 3%nat = Some (Some 11%nat) /\
  currentNumPlayers (srv (fst after)) = currentNumPlayers (srv duel_playing)
  /\ broadcasts_of playerDisconnectHeader (snd after) = [].
Proof. vm_compute. repeat split; reflexivity. Qed.

(** ** Admission and handshake *)

Lemma lookup_resetPlayers (ps : list player) (i : nat) :
  resetPlayers ps !! i
  = (fun p => Player.set_isAlive true (Player.set_health maxHealth p))
      <$> ps !! i.
Proof.
  revert i. induction ps as [|p ps IH]; intros [|i]; try reflexivity.
  apply IH.
Qed.

Lemma not_asking_slot (m : list Z) :
  (forall i, ~ asks_slot m i) ->
  negb (length m =? 1)%nat || (byte_at 0 m <? 0) || (5 <? byte_at 0 m) = true.
Proof.
  intros H. destruct m as [|v [|v' rest]]; try reflexivity.
  cbn [length Nat.eqb negb orb byte_at nth].
  destruct (v <? 0) eqn:H0; [reflexivity|].
  destruct (5 <? v) eqn:H5; [reflexivity|].
  exfalso. apply (H v). split; [reflexivity|lia].
Qed.

Section Handshake.
Context (s : server) (c : connId) (m : list Z) (wok : bool).

Let r := serveWs_enter c true (ReadMessage m) wok s.
Let admitted := currentNumPlayers s < numPlayers s /\ round s <= 0.

Lemma enter_lobby_full :
  numPlayers s <= currentNumPlayers s ->
  r = Ok None s [HttpError "Lobby is full" 403].
Proof.
  intros H. unfold r, serveWs_enter. rewrite bind_get.
  now replace (numPlayers s <=? currentNumPlayers s) with true by lia.
Qed.

Lemma enter_in_progress :
  currentNumPlayers s < numPlayers s -> 0 < round s ->
  r = Ok None s [HttpError "Game is in progress" 403].
Proof.
  intros H Hr. unfold r, serveWs_enter. rewrite bind_get.
  replace (numPlayers s <=? currentNumPlayers s) with false by lia.
  now replace (0 <? round s) with true by lia.
Qed.

Lemma enter_admitted :
  admitted ->
  r = (res <- initialisePlayer c (ReadMessage m) wok ;;
       match snd res with
       | Some e => emit (LogErr e) ;;; ret None
       | None =>
           s1 <- get ;;
           (if currentNumPlayers s1 =? numPlayers s1
            then nextRound else ret tt) ;;;
           ret (Some (fst res))
       end) s.
Proof.
  intros [H Hr]. unfold r, serveWs_enter. rewrite bind_get.
  replace (numPlayers s <=? currentNumPlayers s) with false by lia.
  now replace (0 <? round s) with false by lia.
Qed.

Lemma enter_bad_id :
  admitted -> (forall i, ~ asks_slot m i) ->
  r = Ok None s [WriteMessage c [failure]; LogErr errBadId].
Proof.
  intros Ha Hbad. rewrite (enter_admitted Ha).
  unfold initialisePlayer. rewrite (not_asking_slot m Hbad).
  reflexivity.
Qed.

Lemma enter_slot_taken (i : Z) (p : player) :
  admitted -> asks_slot m i ->
  players s !! Z.to_nat i = Some p -> isEmpty p = false ->
  r = Ok None s [WriteMessage c [failure]; LogErr errSlotTaken].
Proof.
  intros Ha [Hm Hi] Hp He. rewrite (enter_admitted Ha). subst m.
  unfold initialisePlayer. cbn [length Nat.eqb negb orb byte_at nth].
  replace (i <? 0) with false by lia. replace (5 <? i) with false by lia.
  cbn [orb]. rewrite bind_assoc.
  rewrite (bind_player_at s i p) by (unfold maxPlayers; lia || exact Hp).
  rewrite He. reflexivity.
Qed.

Lemma enter_success (i : Z) (p : player) :
  admitted -> asks_slot m i ->
  players s !! Z.to_nat i = Some p -> isEmpty p = true -> wok = true ->
  let joined :=
    set_currentNumPlayers (wrap_int (currentNumPlayers s + 1))
      (set_players (<[Z.to_nat i := newPlayer i c]> (players s)) s) in
  r = prepend [WriteMessage c [success]]
        (if currentNumPlayers joined =? numPlayers joined
         then (nextRound ;;; ret (Some (newPlayer i c))) joined
         else Ok (Some (newPlayer i c)) joined []).
Proof.
  intros Ha [Hm Hi] Hp He Hw. cbv zeta.
  rewrite (enter_admitted Ha). subst m wok.
  unfold initialisePlayer. cbn [length Nat.eqb negb orb byte_at nth].
  replace (i <? 0) with false by lia. replace (5 <? i) with false by lia.
  cbn [orb]. rewrite bind_assoc.
  rewrite (bind_player_at s i p) by (unfold maxPlayers; lia || exact Hp).
  rewrite He. cbn [negb].
  rewrite bind_assoc.
  rewrite (bind_update_player s i p) by (unfold maxPlayers; lia || exact Hp).
  rewrite bind_assoc, bind_modify, bind_assoc, bind_emit, bind_ret.
  cbn [snd fst]. rewrite bind_get.
  cbn [currentNumPlayers numPlayers set_players set_currentNumPlayers].
  destruct (wrap_int (currentNumPlayers s + 1) =? numPlayers s).
  - reflexivity.
  - now rewrite bind_ret.
Qed.

(** C5 (as the code has it): a connection that arrives when the lobby is
    full, or when a round is in progress, is refused with HTTP status 403
    before any websocket exists: no handshake byte is written.  Otherwise
    the handshake message is read, and the failure byte (1) is written,
    the server left as it was and the receive loop not entered, exactly
    when the message is not a single byte in [0,5] or the slot it names
    is occupied; when the slot is free it is bound to the connection, the
    live count is incremented, and the success byte (0) is written
    first. *)
Theorem handshake_outcomes :
  (numPlayers s <= currentNumPlayers s ->
   r = Ok None s [HttpError "Lobby is full" 403]) /\
  (currentNumPlayers s < numPlayers s -> 0 < round s ->
   r = Ok None s [HttpError "Game is in progress" 403]) /\
  (admitted -> (forall i, ~ asks_slot m i) ->
   r = Ok None s [WriteMessage c [failure]; LogErr errBadId]) /\
  (forall (i : Z) (p : player),
     admitted -> asks_slot m i -> players s !! Z.to_nat i = Some p ->
     (isEmpty p = false ->
      r = Ok None s [WriteMessage c [failure]; LogErr errSlotTaken]) /\
     (isEmpty p = true -> wok = true ->
      value_of r = Some (Some (newPlayer i c)) /\
      head (output_of r) = Some (WriteMessage c [success]) /\
      ~ In (WriteMessage c [failure]) (output_of r) /\
      Player.conn <$> players (state_of r) !! Z.to_nat i = Some (Some c) /\
      currentNumPlayers (state_of r)
        = wrap_int (currentNumPlayers s + 1))).
Proof.
  split; [exact enter_lobby_full|]. split; [exact enter_in_progress|].
  split; [exact enter_bad_id|].
  intros i p Ha Hm Hp. split; [now apply enter_slot_taken with (i := i)|].
  intros He Hw. rewrite (enter_success i p Ha Hm Hp He Hw).
  assert (Hlt : (Z.to_nat i < length (players s))%nat)
    by now apply lookup_lt_Some in Hp.
  cbn [currentNumPlayers numPlayers set_players set_currentNumPlayers].
  destruct (wrap_int (currentNumPlayers s + 1) =? numPlayers s).
  - unfold bind. rewrite nextRound_eq. cbn [prepend ret].
    cbn [value_of output_of state_of app head].
    repeat split.
    + destruct (round _ =? lastRound); cbn;
        intros H; repeat (destruct H as [H|H]; [discriminate|]); exact H.
    + cbn. rewrite lookup_resetPlayers, list_lookup_insert_eq by exact Hlt.
      reflexivity.
  - cbn [prepend value_of output_of state_of app head].
    repeat split.
    + cbn. intros [H|[]]. discriminate.
    + cbn. now rewrite list_lookup_insert_eq by exact Hlt.
Qed.
End Handshake.

Lemma handshake_outcomes_witness :
  (currentNumPlayers (newServer 2) < numPlayers (newServer 2)
   /\ round (newServer 2) <= 0) /\
  asks_slot [0] 0 /\
  head (output_of
          (serveWs_enter 10%nat true (ReadMessage [0]) true (newServer 2)))
  = Some (WriteMessage 10%nat [success]).
Proof.
  assert (Ha : currentNumPlayers (newServer 2) < numPlayers (newServer 2)
               /\ round (newServer 2) <= 0)
    by (cbn; lia).
  assert (Hm : asks_slot [0] 0) by (split; [reflexivity | lia]).
  split; [exact Ha|]. split; [exact Hm|].
  pose proof (proj2 (proj2 (proj2
                (handshake_outcomes (newServer 2) 10%nat [0] true)))
                0 Player.zero Ha Hm eq_refl) as H.
  exact (proj1 (proj2 (proj2 H eq_refl eq_refl))).
Defined.

(** C5, refuted as stated: the third connection to a full lobby gets HTTP
    403 and no failure byte; and so does a connection that arrives while
    a round is in progress after a player has left. *)
Lemma full_lobby_gets_http_error :
  let late := Connect 12%nat true (ReadMessage [1]) true in
  let vacated := fst (step duel_playing (Receive 11%nat ReadClose true)) in
  numPlayers (srv duel) <= currentNumPlayers (srv duel) /\
  snd (step duel late) = [HttpError "Lobby is full" 403] /\
  ~ In (WriteMessage 12%nat [failure]) (snd (step duel late)) /\
  currentNumPlayers (srv vacated) < numPlayers (srv vacated) /\
  0 < round (srv vacated) /\
  snd (step vacated late) = [HttpError "Game is in progress" 403].
Proof.
  vm_compute. repeat split; try reflexivity; try discriminate.
  intros [H|[]]. discriminate.
Qed.

(** ** Faults *)

Lemma hit_out_of_range_panics
    (s : server) (newP : player) (wok : bool) (t d : Z) :
  maxPlayers <= t ->
  loop_body newP (hit t d) wok s = Panicked (IndexOutOfRange t) s [].
Proof.
  intros Ht. change (loop_body newP (hit t d) wok s)
    with ((handleHit newP wok [hitMessage; t; d] ;;; ret Continue) s).
  unfold handleHit, byte_at, update_player. cbn [nth].
  unfold bind. now rewrite player_at_out_of_range.
Qed.


(** C9, the code at the failing inputs: in the duel, a Hit whose target
    byte is 6 panics on the array index, before anything is written; a
    Hit on the empty slot 1 panics on the nil connection, the health of
    the empty slot already decremented.  In both cases the goroutine of
    the sender's connection is gone and its slot is still occupied. *)
Theorem hit_on_bad_target_panics :
  loop_body player0 (hit 6 1) true (srv duel_playing)
    = Panicked (IndexOutOfRange 6) (srv duel_playing) [] /\
  panic_of (loop_body player0 (hit 1 1) true (srv duel_playing))
    = Some NilDereference /\
  Player.health <$>
    players (state_of (loop_body player0 (hit 1 1) true (srv duel_playing)))
      !! 1%nat = Some 2 /\
  (let after := fst (step duel_playing (Receive 10%nat (hit 6 1) true)) in
   find_loop 10%nat (loops after) = None /\
   Player.conn <$> players (srv after) !! 0%nat = Some (Some 10%nat) /\
   currentNumPlayers (srv after) = 2).
Proof. vm_compute. repeat split; reflexivity. Qed.

(** C10, the code at the failing input: the first handshake of a lobby
    of two asks for the free slot 0 and the write of the success byte
    fails.  [initialisePlayer] returns the error with the slot already
    bound and the live count already 1; [serveWs] logs it and returns, so
    no receive loop, and hence no cleanup, exists for the connection. *)
Theorem failed_success_write_keeps_slot :
  let r := initialisePlayer 10%nat (ReadMessage [0]) false (newServer 2) in
  let after := fst (step (boot 2) (Connect 10%nat true (ReadMessage [0]) false))
  in
  snd <$> value_of r = Some (Some errWrite) /\
  Player.conn <$> players (state_of r) !! 0%nat = Some (Some 10%nat) /\
  currentNumPlayers (state_of r) = 1 /\
  loops after = [] /\
  Player.conn <$> players (srv after) !! 0%nat = Some (Some 10%nat) /\
  currentNumPlayers (srv after) = 1 /\
  snd (step after (Connect 11%nat true (ReadMessage [0]) true))
    = [WriteMessage 11%nat [failure]; LogErr errSlotTaken].
Proof. vm_compute. repeat split; reflexivity. Qed.

(** The other failures of the handshake do leave the registry alone. *)
Lemma initialisePlayer_early_failures
    (s : server) (c : connId) (r : readResult) (wok : bool) :
  match value_of (initialisePlayer c r wok s) with
  | Some (_, Some errWrite) | Some (_, None) | None => True
  | Some (_, Some _) => state_of (initialisePlayer c r wok s) = s
  end.
Proof.
  unfold initialisePlayer. destruct r as [m| |]; try reflexivity.
  destruct (negb (length m =? 1)%nat || (byte_at 0 m <? 0)
            || (5 <? byte_at 0 m)); [reflexivity|].
  unfold update_player, bind, player_at, modify, emit, ret.
  destruct ((0 <=? byte_at 0 m) && (byte_at 0 m <? maxPlayers)) eqn:Hb;
    [|exact I].
  destruct (players s !! Z.to_nat (byte_at 0 m)) as [p|] eqn:Hp; [|exact I].
  destruct (negb (isEmpty p)); [reflexivity|].
  cbn [prepend app]. rewrite ?Hb, ?Hp. cbn [prepend app].
  destruct wok; exact I.
Qed.

(** * Further properties *)

(** ** Computations that keep an observation *)

Lemma keeps_bind {A B X} (f : server -> X) (m : M A) (k : A -> M B) :
  keeps f m -> (forall v, keeps f (k v)) -> keeps f (bind m k).
Proof.
  intros Hm Hk s. unfold bind. specialize (Hm s).
  destruct (m s) as [v s1 o1|]; [|exact Hm].
  rewrite state_of_prepend, Hk. exact Hm.
Qed.

Lemma keeps_ret {A X} (f : server -> X) (v : A) : keeps f (ret v).
Proof. now intros s. Qed.

Lemma keeps_get {X} (f : server -> X) : keeps f get.
Proof. now intros s. Qed.

Lemma keeps_emit {X} (f : server -> X) (o : output) : keeps f (emit o).
Proof. now intros s. Qed.

Lemma keeps_raise {A X} (f : server -> X) (e : panic) : keeps f (@raise A e).
Proof. now intros s. Qed.

Lemma keeps_player_at {X} (f : server -> X) (i : Z) : keeps f (player_at i).
Proof.
  intros s. unfold player_at.
  destruct ((0 <=? i) && (i <? maxPlayers)); [|reflexivity].
  now destruct (players s !! Z.to_nat i).
Qed.

Lemma keeps_deref {X} (f : server -> X) (c : option connId) :
  keeps f (deref c).
Proof. destruct c; [apply keeps_ret | apply keeps_raise]. Qed.

Lemma keeps_write_logged {X} (f : server -> X)
    (c : connId) (m : list Z) (wok : bool) :
  keeps f (write_logged c m wok).
Proof.
  unfold write_logged. apply keeps_bind; [apply keeps_emit|]. intros _.
  destruct wok; [apply keeps_ret | apply keeps_emit].
Qed.

Lemma keeps_broadcast {X} (f : server -> X) (m : list Z) :
  keeps f (broadcastByteMessage m).
Proof. apply keeps_emit. Qed.

(** ** The registry under the handlers *)

Lemma ident_insert_same (ps : list player) (i : nat) (p q : player) :
  ps !! i = Some p -> ident q = ident p ->
  ident <$> <[i := q]> ps = ident <$> ps.
Proof.
  intros Hp Hq. rewrite list_fmap_insert, Hq.
  apply list_insert_id. now rewrite list_lookup_fmap, Hp.
Qed.

Lemma keeps_registry_update (i : Z) (f : player -> player) :
  (forall p, ident (f p) = ident p) -> keeps registry (update_player i f).
Proof.
  intros Hf s. unfold update_player, bind, player_at.
  destruct ((0 <=? i) && (i <? maxPlayers)); [|reflexivity].
  destruct (players s !! Z.to_nat i) as [p|] eqn:Hp; [|reflexivity].
  cbn. unfold registry. cbn.
  now rewrite (ident_insert_same _ _ p) by auto.
Qed.

Lemma ident_resetPlayers (ps : list player) :
  ident <$> resetPlayers ps = ident <$> ps.
Proof.
  induction ps as [|p ps IH]; [reflexivity|].
  cbn. f_equal. exact IH.
Qed.

Create HintDb registry_db.
#[local] Hint Resolve keeps_ret keeps_get keeps_emit keeps_raise
  keeps_player_at keeps_deref keeps_write_logged keeps_broadcast
  : registry_db.

(** Walks through a handler that only updates slots in place. *)
Ltac keeps_registry_tac :=
  repeat first
    [ progress auto with registry_db
    | apply keeps_registry_update; intros ?; reflexivity
    | apply keeps_bind; [|intros ?]
    | match goal with
      | |- keeps _ (if ?c then _ else _) => destruct c
      | |- keeps _ (match ?c with _ => _ end) => destruct c
      end ].

Lemma keeps_registry_handleHit (newP : player) (wok : bool) (m : list Z) :
  keeps registry (handleHit newP wok m).
Proof. unfold handleHit. keeps_registry_tac. Qed.

Lemma keeps_registry_handleLocation (newP : player) (m : list Z) :
  keeps registry (handleLocation newP m).
Proof. unfold handleLocation. keeps_registry_tac. Qed.

#[local] Hint Resolve keeps_registry_handleHit keeps_registry_handleLocation
  : registry_db.

Lemma keeps_registry_dispatch (newP : player) (wok : bool) (m : list Z) :
  keeps registry (dispatch newP wok m).
Proof. unfold dispatch. keeps_registry_tac. Qed.

#[local] Hint Resolve keeps_registry_dispatch : registry_db.

Lemma keeps_registry_loop_body
    (newP : player) (r : readResult) (wok : bool) :
  keeps registry (loop_body newP r wok).
Proof. unfold loop_body. keeps_registry_tac. Qed.

Lemma keeps_registry_nextRound : keeps registry nextRound.
Proof.
  intros s. rewrite nextRound_eq. unfold registry. cbn.
  now rewrite ident_resetPlayers.
Qed.

Lemma keeps_registry_run_task (t : task) : keeps registry (run_task t).
Proof.
  destruct t; cbn [run_task];
    [apply keeps_registry_nextRound | apply keeps_broadcast | apply keeps_ret].
Qed.

(** ** Counting occupied slots *)

Lemma count_occupied_ident (ps : list player) :
  forall ps' : list player,
    ident <$> ps = ident <$> ps' -> count_occupied ps = count_occupied ps'.
Proof.
  unfold count_occupied.
  induction ps as [|p ps IH]; intros [|p' ps'] H; try discriminate;
    [reflexivity|].
  cbn in H. injection H as Hid Hteam Hconn Hrest.
  specialize (IH ps' Hrest). cbn [List.filter].
  assert (Ho : occupied p = occupied p')
    by (unfold occupied, isEmpty; now rewrite Hconn).
  rewrite Ho. destruct (occupied p'); cbn [length]; lia.
Qed.

Lemma count_occupied_insert (ps : list player) :
  forall (i : nat) (p q : player),
    ps !! i = Some p ->
    count_occupied (<[i := q]> ps)
    = count_occupied ps - (if occupied p then 1 else 0)
      + (if occupied q then 1 else 0).
Proof.
  unfold count_occupied.
  induction ps as [|p0 ps IH]; intros [|i] p q Hp; try discriminate.
  - injection Hp as ->. cbn [insert list_insert List.filter].
    destruct (occupied p), (occupied q); cbn [length]; lia.
  - cbn in Hp. specialize (IH i p q Hp).
    change (<[S i := q]> (p0 :: ps)) with (p0 :: <[i := q]> ps).
    cbn [List.filter]. destruct (occupied p0); cbn [length]; lia.
Qed.

Lemma count_occupied_bounds (ps : list player) :
  0 <= count_occupied ps <= Z.of_nat (length ps).
Proof.
  unfold count_occupied. split; [lia|].
  apply Nat2Z.inj_le. induction ps as [|p ps IH]; [reflexivity|].
  cbn [List.filter]. destruct (occupied p); cbn [length]; lia.
Qed.

(** ** The registry invariant *)

Lemma lookup_ident (ps ps' : list player) (i : nat) (p' : player) :
  ident <$> ps' = ident <$> ps -> ps' !! i = Some p' ->
  exists p, ps !! i = Some p /\ ident p = ident p'.
Proof.
  intros H Hp'.
  assert (Hi : (ident <$> ps) !! i = Some (ident p'))
    by (rewrite <- H, list_lookup_fmap, Hp'; reflexivity).
  rewrite list_lookup_fmap in Hi.
  destruct (ps !! i) as [p|]; [|discriminate].
  exists p. split; [reflexivity|]. cbn in Hi. congruence.
Qed.

Lemma registry_ok_transfer
    (n : Z) (s s' : server) (ls ls' : list (connId * player)) :
  registry s' = registry s -> (forall x, In x ls' -> In x ls) ->
  registry_ok n s ls -> registry_ok n s' ls'.
Proof.
  intros Hreg Hsub [Hlen Hslots Hcount Hbound Hloops Hconf].
  unfold registry in Hreg. injection Hreg as Hid Hcur Hnum HA HB.
  constructor.
  - rewrite <- Hlen. rewrite <- (length_fmap ident (players s')), Hid.
    apply length_fmap.
  - intros i p' Hp' He.
    destruct (lookup_ident _ _ i p' Hid Hp') as [p [Hp Hpp]].
    injection Hpp as Hi Ht Hc. rewrite <- Hi, <- Ht.
    apply Hslots; [exact Hp|]. unfold isEmpty in *. now rewrite Hc.
  - rewrite Hcur, Hcount. symmetry. now apply count_occupied_ident.
  - now rewrite Hcur.
  - intros c p Hin. destruct (Hloops c p (Hsub _ Hin)) as [Hr [q [Hq Hc]]].
    split; [exact Hr|].
    assert (Hi : (ident <$> players s') !! Z.to_nat (Player.id p)
                 = Some (ident q))
      by (rewrite Hid, list_lookup_fmap, Hq; reflexivity).
    rewrite list_lookup_fmap in Hi.
    destruct (players s' !! Z.to_nat (Player.id p)) as [q'|]; [|discriminate].
    exists q'. split; [reflexivity|]. cbn in Hi. injection Hi as _ _ Hcq.
    congruence.
  - now rewrite Hnum, HA, HB.
Qed.

Lemma registry_ok_boot (n : Z) : registry_ok n (newServer n) [].
Proof.
  constructor.
  - reflexivity.
  - intros i p Hp He. exfalso.
    do 6 (destruct i as [|i]; [injection Hp as <-; discriminate|]).
    discriminate.
  - reflexivity.
  - cbn. lia.
  - intros c p [].
  - now cbn.
Qed.

Lemma in_remove_loop (c : connId) (ls : list (connId * player)) :
  forall (c' : connId) (p : player),
    In (c', p) (remove_loop c ls) -> In (c', p) ls /\ c' <> c.
Proof.
  induction ls as [|[k q] ls IH]; intros c' p Hin; [contradiction|].
  cbn in Hin. destruct (Nat.eqb k c) eqn:Hk.
  - destruct (IH _ _ Hin). split; [now right | assumption].
  - destruct Hin as [Heq|Hin].
    + injection Heq as -> ->. split; [now left|].
      now apply Nat.eqb_neq.
    + destruct (IH _ _ Hin). split; [now right | assumption].
Qed.

Lemma find_loop_in (c : connId) (ls : list (connId * player)) (p : player) :
  find_loop c ls = Some p -> In (c, p) ls.
Proof.
  induction ls as [|[k q] ls IH]; intros H; [discriminate|].
  cbn in H. destruct (Nat.eqb k c) eqn:Hk.
  - injection H as ->. apply Nat.eqb_eq in Hk as ->. now left.
  - right. now apply IH.
Qed.

Section Join.
Context (n : Z) (s : server) (ls : list (connId * player))
        (c : connId) (i : Z) (p : player).
Hypothesis Hok : registry_ok n s ls.
Hypothesis Hi : 0 <= i <= 5.
Hypothesis Hp : players s !! Z.to_nat i = Some p.
Hypothesis He : isEmpty p = true.
Hypothesis Hroom : currentNumPlayers s < numPlayers s.

Let joined :=
  set_currentNumPlayers (wrap_int (currentNumPlayers s + 1))
    (set_players (<[Z.to_nat i := newPlayer i c]> (players s)) s).

Lemma joined_count :
  currentNumPlayers joined = currentNumPlayers s + 1.
Proof.
  destruct Hok as [Hlen _ Hcount _ _ _]. cbn.
  pose proof (count_occupied_bounds (players s)) as Hb.
  rewrite Hlen in Hb. apply wrap_int_id.
  unfold int_min, int_max, maxPlayers in *. lia.
Qed.

Lemma registry_ok_join :
  registry_ok n joined (ls ++ [(c, newPlayer i c)]).
Proof.
  pose proof joined_count as Hj.
  destruct Hok as [Hlen Hslots Hcount Hbound Hloops Hconf].
  assert (Hlt : (Z.to_nat i < length (players s))%nat)
    by now apply lookup_lt_Some in Hp.
  constructor.
  - cbn. now rewrite length_insert.
  - intros j q Hq Hne. cbn in Hq.
    destruct (decide (j = Z.to_nat i)) as [->|Hji].
    + rewrite list_lookup_insert_eq in Hq by exact Hlt. injection Hq as <-.
      cbn. rewrite Z2Nat.id by lia. now unfold team_of_slot.
    + rewrite list_lookup_insert_ne in Hq by congruence. now apply Hslots.
  - rewrite Hj. cbn. rewrite (count_occupied_insert _ _ p) by exact Hp.
    unfold occupied. rewrite He. cbn. lia.
  - rewrite Hj. destruct Hconf as [Hn _]. lia.
  - intros c' p' Hin. apply in_app_or in Hin as [Hin|[Heq|[]]].
    + destruct (Hloops c' p' Hin) as [Hr [q [Hq Hc]]].
      split; [exact Hr|]. exists q. split; [|exact Hc]. cbn.
      rewrite list_lookup_insert_ne; [exact Hq|].
      intros Heq. rewrite <- Heq, Hp in Hq. injection Hq as <-.
      unfold isEmpty in He. rewrite Hc in He. discriminate.
    + injection Heq as <- <-. cbn [newPlayer Player.id].
      split; [unfold maxPlayers; lia|].
      exists (newPlayer i c). split; [|reflexivity]. cbn.
      now apply list_lookup_insert_eq.
  - exact Hconf.
Qed.
End Join.

Section Leave.
Context (n : Z) (s : server) (ls : list (connId * player))
        (c : connId) (p : player).
Hypothesis Hok : registry_ok n s ls.
Hypothesis Hin : In (c, p) ls.

Let left :=
  set_currentNumPlayers (wrap_int (currentNumPlayers s - 1))
    (set_players (<[Z.to_nat (Player.id p) := Player.zero]> (players s)) s).

Lemma left_count : currentNumPlayers left = currentNumPlayers s - 1.
Proof.
  destruct Hok as [Hlen _ Hcount _ Hloops _].
  destruct (Hloops c p Hin) as [Hr [q [Hq Hc]]]. cbn.
  pose proof (count_occupied_bounds (players s)) as Hb.
  rewrite Hlen in Hb. apply wrap_int_id.
  unfold int_min, int_max, maxPlayers in *. lia.
Qed.

Lemma disconnect_left :
  disconnect p s =
  Ok tt left
     [Broadcast [header_byte playerDisconnectHeader; to_byte (Player.id p)]].
Proof.
  destruct Hok as [_ _ _ _ Hloops _].
  destruct (Hloops c p Hin) as [Hr [q [Hq Hc]]].
  unfold disconnect. rewrite (bind_update_player s _ q Hr Hq).
  now rewrite bind_modify.
Qed.

Lemma registry_ok_leave : registry_ok n left (remove_loop c ls).
Proof.
  pose proof left_count as Hl.
  destruct Hok as [Hlen Hslots Hcount Hbound Hloops Hconf].
  destruct (Hloops c p Hin) as [Hr [q [Hq Hc]]].
  constructor.
  - cbn. now rewrite length_insert.
  - intros j q' Hq' Hne. cbn in Hq'.
    destruct (decide (j = Z.to_nat (Player.id p))) as [->|Hj].
    + rewrite list_lookup_insert_eq in Hq'
        by now apply lookup_lt_Some in Hq.
      injection Hq' as <-. discriminate.
    + rewrite list_lookup_insert_ne in Hq' by congruence. now apply Hslots.
  - rewrite Hl. cbn. rewrite (count_occupied_insert _ _ q) by exact Hq.
    unfold occupied, isEmpty. rewrite Hc. cbn. lia.
  - rewrite Hl. lia.
  - intros c' p' Hin'. apply in_remove_loop in Hin' as [Hin' Hcc].
    destruct (Hloops c' p' Hin') as [Hr' [q' [Hq' Hc']]].
    split; [exact Hr'|]. exists q'. split; [|exact Hc']. cbn.
    rewrite list_lookup_insert_ne; [exact Hq'|].
    intros Heq. rewrite Heq, Hq' in Hq. injection Hq as ->. congruence.
  - exact Hconf.
Qed.
End Leave.

(** ** The handshake, whatever the I/O does *)

Lemma asking_slot (m : list Z) :
  negb (length m =? 1)%nat || (byte_at 0 m <? 0) || (5 <? byte_at 0 m) = false
  -> asks_slot m (byte_at 0 m).
Proof.
  intros H. destruct m as [|v [|v' rest]]; try discriminate.
  cbn [length Nat.eqb negb orb byte_at nth] in *.
  split; [reflexivity|]. lia.
Qed.

Section Enter.
Context (s : server) (c : connId) (m : list Z) (wok : bool)
        (i : Z) (p : player).
Hypothesis Hroom : currentNumPlayers s < numPlayers s.
Hypothesis Hlobby : round s <= 0.
Hypothesis Hm : asks_slot m i.
Hypothesis Hp : players s !! Z.to_nat i = Some p.
Hypothesis He : isEmpty p = true.

Let joined :=
  set_currentNumPlayers (wrap_int (currentNumPlayers s + 1))
    (set_players (<[Z.to_nat i := newPlayer i c]> (players s)) s).

Lemma enter_join :
  serveWs_enter c true (ReadMessage m) wok s =
  prepend [WriteMessage c [success]]
    (if wok then
       if currentNumPlayers joined =? numPlayers joined
       then (nextRound ;;; ret (Some (newPlayer i c))) joined
       else Ok (Some (newPlayer i c)) joined []
     else Ok None joined [LogErr errWrite]).
Proof.
  destruct wok.
  - apply (enter_success s c m true i p); auto.
  - rewrite (enter_admitted s c m false (conj Hroom Hlobby)).
    destruct Hm as [-> Hi].
    unfold initialisePlayer. cbn [length Nat.eqb negb orb byte_at nth].
    replace (i <? 0) with false by lia. replace (5 <? i) with false by lia.
    cbn [orb]. rewrite bind_assoc.
    rewrite (bind_player_at s i p) by (unfold maxPlayers; lia || exact Hp).
    rewrite He. cbn [negb]. rewrite bind_assoc.
    rewrite (bind_update_player s i p) by (unfold maxPlayers; lia || exact Hp).
    rewrite bind_assoc, bind_modify, bind_assoc, bind_emit, bind_ret.
    reflexivity.
Qed.

Lemma enter_join_registry :
  registry (state_of (serveWs_enter c true (ReadMessage m) wok s))
  = registry joined.
Proof.
  rewrite enter_join, state_of_prepend. destruct wok; [|reflexivity].
  destruct (currentNumPlayers joined =? numPlayers joined); [|reflexivity].
  unfold bind. pose proof (keeps_registry_nextRound joined) as H.
  destruct (nextRound joined); exact H.
Qed.

Lemma enter_join_value (q : player) :
  value_of (serveWs_enter c true (ReadMessage m) wok s) = Some (Some q) ->
  q = newPlayer i c.
Proof.
  rewrite enter_join. destruct wok; [|discriminate].
  destruct (currentNumPlayers joined =? numPlayers joined).
  - unfold bind. rewrite nextRound_eq. cbn. congruence.
  - cbn. congruence.
Qed.
End Enter.

(** Either the handshake leaves the server as it was and the loop is not
    entered, or it binds a free slot. *)
Lemma serveWs_enter_cases
    (s : server) (c : connId) (u : bool) (r : readResult) (wok : bool) :
  (state_of (serveWs_enter c u r wok s) = s
   /\ forall q, value_of (serveWs_enter c u r wok s) <> Some (Some q))
  \/
  (exists (i : Z) (p : player),
     0 <= i <= 5 /\ players s !! Z.to_nat i = Some p /\ isEmpty p = true
     /\ currentNumPlayers s < numPlayers s
     /\ registry (state_of (serveWs_enter c u r wok s))
        = registry
            (set_currentNumPlayers (wrap_int (currentNumPlayers s + 1))
               (set_players (<[Z.to_nat i := newPlayer i c]> (players s)) s))
     /\ forall q, value_of (serveWs_enter c u r wok s) = Some (Some q) ->
                  q = newPlayer i c).
Proof.
  destruct (Z.leb_spec (numPlayers s) (currentNumPlayers s)) as [Hfull|Hroom].
  { left. unfold serveWs_enter. rewrite bind_get.
    replace (numPlayers s <=? currentNumPlayers s) with true by lia.
    split; [reflexivity | discriminate]. }
  destruct (Z.ltb_spec 0 (round s)) as [Hrun|Hlobby].
  { left. unfold serveWs_enter. rewrite bind_get.
    replace (numPlayers s <=? currentNumPlayers s) with false by lia.
    replace (0 <? round s) with true by lia.
    split; [reflexivity | discriminate]. }
  destruct u.
  2:{ left. unfold serveWs_enter. rewrite bind_get.
      replace (numPlayers s <=? currentNumPlayers s) with false by lia.
      replace (0 <? round s) with false by lia.
      split; [reflexivity | discriminate]. }
  destruct r as [m| |].
  2,3: left; unfold serveWs_enter; rewrite bind_get;
       replace (numPlayers s <=? currentNumPlayers s) with false by lia;
       replace (0 <? round s) with false by lia;
       split; [reflexivity | discriminate].
  destruct (negb (length m =? 1)%nat || (byte_at 0 m <? 0)
            || (5 <? byte_at 0 m)) eqn:Hbad.
  { left. rewrite (enter_admitted s c m wok (conj Hroom Hlobby)).
    unfold initialisePlayer. rewrite Hbad.
    split; [reflexivity | discriminate]. }
  pose proof (asking_slot m Hbad) as Hm.
  assert (Hi : 0 <= byte_at 0 m <= 5) by (destruct Hm; assumption).
  destruct (players s !! Z.to_nat (byte_at 0 m)) as [p|] eqn:Hp.
  2:{ left. rewrite (enter_admitted s c m wok (conj Hroom Hlobby)).
      unfold initialisePlayer. rewrite Hbad.
      unfold bind, player_at.
      replace ((0 <=? byte_at 0 m) && (byte_at 0 m <? maxPlayers)) with true
        by (unfold maxPlayers; lia).
      rewrite Hp. split; [reflexivity | intros q; cbn; discriminate]. }
  destruct (isEmpty p) eqn:He.
  - right. exists (byte_at 0 m), p. repeat split; try assumption; try lia.
    + apply (enter_join_registry s c m wok _ p); assumption.
    + intros q. apply (enter_join_value s c m wok _ p); assumption.
  - left.
    rewrite (enter_slot_taken s c m wok _ p (conj Hroom Hlobby) Hm Hp He).
    split; [reflexivity | discriminate].
Qed.

(** ** Every step keeps the registry invariant *)

Lemma step_registry_ok (n : Z) (sys : system) (e : event) :
  registry_ok n (srv sys) (loops sys) ->
  registry_ok n (srv (fst (step sys e))) (loops (fst (step sys e))).
Proof.
  intros Hok. unfold step. destruct (exited sys); [exact Hok|].
  destruct e as [c u r wok|c r wok|k|wok].
  - destruct (serveWs_enter_cases (srv sys) c u r wok)
      as [[Hs Hv]|[i [p [Hi [Hp [He [Hroom [Hreg Hv]]]]]]]].
    + destruct (serveWs_enter c u r wok (srv sys)) as [[q|] s1 o|e s1 o];
        cbn in *; subst; try exact Hok.
      now destruct (Hv q).
    + pose proof (registry_ok_join n (srv sys) (loops sys) c i p
                    Hok Hi Hp He Hroom) as Hj.
      destruct (serveWs_enter c u r wok (srv sys)) as [[q|] s1 o|e s1 o];
        cbn [fst srv loops state_of value_of] in *.
      * rewrite (Hv q eq_refl).
        apply (registry_ok_transfer n _ s1 _ _ Hreg (fun x H => H) Hj).
      * refine (registry_ok_transfer n _ s1 _ _ Hreg _ Hj).
        intros x Hx. apply in_or_app. now left.
      * refine (registry_ok_transfer n _ s1 _ _ Hreg _ Hj).
        intros x Hx. apply in_or_app. now left.
  - destruct (find_loop c (loops sys)) as [p|] eqn:Hloop; [|exact Hok].
    apply find_loop_in in Hloop.
    pose proof (keeps_registry_loop_body p r wok (srv sys)) as Hkeep.
    unfold bind.
    destruct (loop_body p r wok (srv sys)) as [[|] s1 o|e s1 o];
      cbn [state_of] in Hkeep.
    + cbn. apply (registry_ok_transfer n (srv sys) s1 (loops sys));
        [exact Hkeep | auto | exact Hok].
    + assert (Hok1 : registry_ok n s1 (loops sys))
        by (apply (registry_ok_transfer n (srv sys) s1 (loops sys));
            [exact Hkeep | auto | exact Hok]).
      unfold bind. rewrite (disconnect_left n s1 (loops sys) c p Hok1 Hloop).
      cbn. apply registry_ok_leave; assumption.
    + cbn. apply (registry_ok_transfer n (srv sys) s1 (loops sys));
        [exact Hkeep | | exact Hok].
      intros x Hx. destruct x as [c' p'].
      now apply in_remove_loop in Hx as [Hx _].
  - destruct (timers sys !! k) as [[dl t]|]; [|exact Hok].
    pose proof (keeps_registry_run_task t (srv sys)) as Hkeep.
    destruct (run_task t (srv sys)) as [v s1 o|e s1 o]; cbn in *;
      apply (registry_ok_transfer n (srv sys) s1 (loops sys));
      auto.
  - exact Hok.
Qed.

Lemma exec_registry_ok (n : Z) (es : list event) :
  forall sys : system,
    registry_ok n (srv sys) (loops sys) ->
    registry_ok n (srv (fst (exec sys es))) (loops (fst (exec sys es))).
Proof.
  induction es as [|e es IH]; intros sys Hok; [exact Hok|].
  rewrite exec_cons. cbn [fst]. apply IH. now apply step_registry_ok.
Qed.

Lemma reachable_registry_ok (n : Z) (es : list event) :
  registry_ok n (srv (fst (exec (boot n) es)))
              (loops (fst (exec (boot n) es))).
Proof. apply exec_registry_ok. apply registry_ok_boot. Qed.

(** ** Location messages *)

Lemma to_int8_range (v : Z) : -128 <= to_int8 v < 128.
Proof.
  unfold to_int8. pose proof (Z.mod_pos_bound v 256) as Hm.
  destruct (Z.ltb_spec (v mod 256) 128); lia.
Qed.

Lemma to_byte_to_int8 (v : Z) : to_byte (to_int8 v) = v mod 256.
Proof.
  unfold to_byte, to_int8. pose proof (Z.mod_pos_bound v 256) as Hm.
  destruct (Z.ltb_spec (v mod 256) 128).
  - apply Z.mod_mod. lia.
  - replace (v mod 256 - 256) with (v mod 256 + (-1) * 256) by lia.
    rewrite Z.mod_add by lia. apply Z.mod_mod. lia.
Qed.

Lemma to_int8_to_byte (v : Z) : -128 <= v < 128 -> to_int8 (to_byte v) = v.
Proof.
  intros Hv. unfold to_int8, to_byte. rewrite Z.mod_mod by lia.
  destruct (Z.ltb_spec v 0) as [Hneg|Hpos].
  - replace (v mod 256) with (v + 256)
      by (apply Z.mod_unique with (q := -1); lia).
    replace (v + 256 <? 128) with false by lia. lia.
  - rewrite Z.mod_small by lia. now replace (v <? 128) with true by lia.
Qed.

Lemma set_players_twice (ps ps' : list player) (s : server) :
  set_players ps
    (set_players ps' s) = set_players ps s.
Proof. reflexivity. Qed.

Lemma players_set_players (ps : list player) (s : server) :
  players (set_players ps s) = ps.
Proof. reflexivity. Qed.

Section Location.
Context (s : server) (newP : player) (wok : bool) (a b c : Z) (p : player).
Hypothesis Hrange : 0 <= Player.id newP < maxPlayers.
Hypothesis Hslot : players s !! Z.to_nat (Player.id newP) = Some p.

Let s' :=
  set_players (<[Z.to_nat (Player.id newP) := moved a b c p]> (players s)) s.

Lemma loop_body_location_eq :
  loop_body newP (location a b c) wok s = Ok Continue s' [].
Proof.
  change (loop_body newP (location a b c) wok s)
    with ((handleLocation newP [locationMessage; a; b; c] ;;; ret Continue) s).
  unfold handleLocation, byte_at. cbn [nth].
  rewrite bind_assoc.
  rewrite (bind_update_player s _ p Hrange Hslot).
  rewrite bind_assoc.
  rewrite (bind_update_player _ _ _ Hrange (lookup_updated s _ p Hslot _)).
  rewrite set_players_twice, players_set_players, list_insert_insert_eq.
  rewrite (bind_update_player _ _ _ Hrange (lookup_updated s _ p Hslot _)).
  rewrite set_players_twice, players_set_players, list_insert_insert_eq.
  reflexivity.
Qed.

(** X1: a four-byte Location message overwrites x, y and z of the
    sender's own slot with its three payload bytes read as int8, leaves
    every other field of that slot and every other slot as they were,
    changes neither round nor count, and emits nothing. *)
Theorem location_updates_sender_only :
  let r := loop_body newP (location a b c) wok s in
  r = Ok Continue (state_of r) [] /\
  players (state_of r) !! Z.to_nat (Player.id newP)
    = Some (Player.mk (Player.id p) (Player.health p) (Player.team p)
              (Player.conn p) (Player.isAlive p)
              (to_int8 a) (to_int8 b) (to_int8 c)) /\
  (forall j : nat, j <> Z.to_nat (Player.id newP) ->
     players (state_of r) !! j = players s !! j) /\
  round (state_of r) = round s /\
  registry (state_of r) = registry s /\
  vitals (state_of r) = vitals s.
Proof.
  cbv zeta. rewrite loop_body_location_eq. cbn [state_of].
  assert (Hlt : (Z.to_nat (Player.id newP) < length (players s))%nat)
    by now apply lookup_lt_Some in Hslot.
  split; [reflexivity|]. split; [|split; [|split; [|split]]].
  - cbn. now rewrite list_lookup_insert_eq by exact Hlt.
  - intros j Hj. cbn. now rewrite list_lookup_insert_ne by congruence.
  - reflexivity.
  - unfold registry. cbn.
    now rewrite (ident_insert_same _ _ p) by auto.
  - unfold vitals. cbn. rewrite list_fmap_insert. cbn.
    apply list_insert_id. now rewrite list_lookup_fmap, Hslot.
Qed.

(** X2: the next snapshot relays the three payload bytes of a Location
    message unchanged: the frame is the header, the parcels of the
    occupied slots before the sender's, the sender's id followed by the
    bytes as they were received, and the parcels of the occupied slots
    after the sender's. *)
Theorem snapshot_relays_location_bytes :
  isEmpty p = false ->
  0 <= a < 256 -> 0 <= b < 256 -> 0 <= c < 256 ->
  let i := Z.to_nat (Player.id newP) in
  serialiseLocations (state_of (loop_body newP (location a b c) wok s))
  = header_byte locationsHeader
      :: concat (map parcel (List.filter occupied (take i (players s))))
      ++ [to_byte (Player.id p); a; b; c]
      ++ concat (map parcel (List.filter occupied (drop (S i) (players s)))).
Proof.
  intros He Ha Hb Hc. cbv zeta.
  rewrite loop_body_location_eq. cbn [state_of].
  unfold serialiseLocations. rewrite writeLocations_eq. cbn [app].
  f_equal. unfold s'. cbn [players set_players].
  assert (Hlt : (Z.to_nat (Player.id newP) < length (players s))%nat)
    by now apply lookup_lt_Some in Hslot.
  rewrite insert_take_drop by exact Hlt.
  rewrite List.filter_app. cbn [List.filter].
  replace (occupied (moved a b c p)) with true
    by (unfold occupied, isEmpty in *; cbn; destruct (Player.conn p);
        [reflexivity | discriminate]).
  rewrite map_app, concat_app. cbn [map concat]. f_equal.
  unfold parcel at 1. cbn [moved Player.id Player.x Player.y Player.z
                            Player.set_x Player.set_y Player.set_z].
  rewrite !to_byte_to_int8, !Z.mod_small by lia. reflexivity.
Qed.
End Location.

Lemma location_updates_sender_only_witness :
  0 <= Player.id player3 < maxPlayers /\
  players (state_of (loop_body player3 (location 8 0 250) true
                       (srv duel_playing))) !! 3%nat
  = Some (Player.mk 3 3 Team.b (Some 11%nat) true 8 0 (-6)).
Proof.
  assert (Hr : 0 <= Player.id player3 < maxPlayers)
    by (vm_compute; split; [discriminate | reflexivity]).
  split; [exact Hr|].
  exact (proj1 (proj2
           (location_updates_sender_only (srv duel_playing) player3 true
              8 0 250 (Player.mk 3 3 Team.b (Some 11%nat) true 0 0 0)
              Hr eq_refl))).
Defined.

Lemma snapshot_relays_location_bytes_witness :
  (0 <= Player.id player3 < maxPlayers /\ 0 <= 250 < 256) /\
  serialiseLocations (state_of (loop_body player3 (location 8 0 250) true
                                  (srv duel_playing)))
  = [2; 0; 0; 0; 0; 3; 8; 0; 250].
Proof.
  assert (Hr : 0 <= Player.id player3 < maxPlayers)
    by (vm_compute; split; [discriminate | reflexivity]).
  split; [split; [exact Hr | lia]|].
  exact (snapshot_relays_location_bytes (srv duel_playing) player3 true
           8 0 250 (Player.mk 3 3 Team.b (Some 11%nat) true 0 0 0)
           Hr eq_refl eq_refl ltac:(lia) ltac:(lia) ltac:(lia)).
Defined.

(** ** The registry of a running process *)

Lemma count_in_step_transfer (s s' : server) :
  registry s' = registry s -> count_in_step s ->
  count_in_step s' /\ currentNumPlayers s' = currentNumPlayers s.
Proof.
  intros Hreg [Hlen Hcount].
  unfold registry in Hreg. injection Hreg as Hid Hcur Hnum HA HB.
  split; [split|exact Hcur].
  - rewrite <- Hlen. rewrite <- (length_fmap ident (players s')), Hid.
    apply length_fmap.
  - rewrite Hcur, Hcount. symmetry. now apply count_occupied_ident.
Qed.

Lemma count_in_step_bounds (s : server) :
  count_in_step s -> 0 <= currentNumPlayers s <= maxPlayers.
Proof.
  intros [Hlen Hcount].
  pose proof (count_occupied_bounds (players s)) as Hb.
  rewrite Hlen in Hb. unfold maxPlayers in *. lia.
Qed.

(** X3: every handler call keeps the live count in step with the array:
    from a server whose array has its six slots and whose live count is
    the number of occupied slots (so between 0 and 6), the handshake of
    [serveWs] leaves the count as it is or registers one more slot and
    adds 1; one pass of the receive loop and a timer callback leave it
    as it is; the cleanup after the loop, run for a player whose slot is
    occupied, subtracts 1; and after each of them the array again has
    six slots of which the live count is the number occupied. *)
Theorem handlers_keep_count_in_step (s : server) :
  count_in_step s ->
  0 <= currentNumPlayers s <= maxPlayers /\
  (forall (c : connId) (u : bool) (r : readResult) (wok : bool),
     let s' := state_of (serveWs_enter c u r wok s) in
     count_in_step s' /\
     (currentNumPlayers s' = currentNumPlayers s
      \/ currentNumPlayers s' = currentNumPlayers s + 1)) /\
  (forall (newP : player) (r : readResult) (wok : bool),
     let s' := state_of (loop_body newP r wok s) in
     count_in_step s' /\ currentNumPlayers s' = currentNumPlayers s) /\
  (forall (newP q : player),
     0 <= Player.id newP < maxPlayers ->
     players s !! Z.to_nat (Player.id newP) = Some q ->
     isEmpty q = false ->
     let s' := state_of (disconnect newP s) in
     count_in_step s' /\ currentNumPlayers s' = currentNumPlayers s - 1) /\
  (forall t : task,
     let s' := state_of (run_task t s) in
     count_in_step s' /\ currentNumPlayers s' = currentNumPlayers s).
Proof.
  intros Hok. pose proof (count_in_step_bounds s Hok) as Hb.
  split; [exact Hb|]. cbv zeta. repeat apply conj.
  - intros c u r wok.
    destruct (serveWs_enter_cases s c u r wok)
      as [[-> _]|[i [p [Hi [Hp [He [_ [Hreg _]]]]]]]].
    + split; [exact Hok | now left].
    + destruct Hok as [Hlen Hcount].
      assert (Hw : wrap_int (currentNumPlayers s + 1)
                   = currentNumPlayers s + 1)
        by (apply wrap_int_id; unfold int_min, int_max, maxPlayers in *; lia).
      apply count_in_step_transfer in Hreg.
      * destruct Hreg as [Hok' Hcur]. split; [exact Hok'|]. right.
        rewrite Hcur. exact Hw.
      * split; cbn.
        -- now rewrite length_insert.
        -- rewrite Hw, (count_occupied_insert _ _ p) by exact Hp.
           unfold occupied. rewrite He. cbn. lia.
  - intros newP r wok.
    apply count_in_step_transfer; [apply keeps_registry_loop_body|exact Hok].
  - intros newP q Hr Hq He.
    unfold disconnect. rewrite (bind_update_player s _ q Hr Hq).
    rewrite bind_modify. cbn.
    destruct Hok as [Hlen Hcount].
    assert (Hw : wrap_int (currentNumPlayers s - 1) = currentNumPlayers s - 1)
      by (apply wrap_int_id; unfold int_min, int_max, maxPlayers in *; lia).
    rewrite Hw. split; [split|reflexivity]; cbn.
    + now rewrite length_insert.
    + rewrite (count_occupied_insert _ _ q) by exact Hq.
      unfold occupied. rewrite He. cbn. lia.
  - intros t.
    apply count_in_step_transfer; [apply keeps_registry_run_task|exact Hok].
Qed.

Lemma handlers_keep_count_in_step_witness :
  count_in_step (srv duel_playing) /\
  currentNumPlayers (state_of (disconnect player3 (srv duel_playing))) = 1 /\
  count_occupied (players (state_of (disconnect player3 (srv duel_playing))))
  = 1.
Proof.
  assert (H : count_in_step (srv duel_playing))
    by (split; vm_compute; reflexivity).
  split; [exact H|].
  assert (Hr : 0 <= Player.id player3 < maxPlayers)
    by (vm_compute; split; [discriminate | reflexivity]).
  destruct (proj1 (proj2 (proj2 (proj2
              (handlers_keep_count_in_step (srv duel_playing) H))))
              player3 (Player.mk 3 3 Team.b (Some 11%nat) true 0 0 0)
              Hr eq_refl eq_refl) as [[_ Hc] Hd].
  split; [exact Hd | now rewrite <- Hc, Hd].
Defined.

(** X4: whatever the events, an occupied slot holds the player whose id
    is the index of the slot, on team a for the indices 0 to 2 and on
    team b for 3 to 5: no two occupied slots share an id. *)
Theorem occupied_slot_holds_its_index
    (n : Z) (es : list event) (i : nat) (p : player) :
  players (srv (fst (exec (boot n) es))) !! i = Some p ->
  isEmpty p = false ->
  Player.id p = Z.of_nat i /\
  (Player.team p = Team.a <-> (i < 3)%nat) /\
  (Player.team p = Team.b <-> (3 <= i < 6)%nat).
Proof.
  intros Hp He.
  destruct (reachable_registry_ok n es) as [Hlen Hslots _ _ _ _].
  destruct (Hslots i p Hp He) as [Hid Hteam].
  apply lookup_lt_Some in Hp. rewrite Hlen in Hp.
  split; [exact Hid|]. rewrite Hteam. unfold team_of_slot, maxTeamPlayers.
  change (Z.shiftr maxPlayers 1) with 3. unfold maxPlayers in Hp.
  destruct (Z.ltb_spec (Z.of_nat i) 3); split; split;
    intros; try discriminate; try reflexivity; lia.
Qed.

Lemma occupied_slot_holds_its_index_witness :
  Player.id player3 = 3 /\ Player.team player3 = Team.b.
Proof.
  destruct (occupied_slot_holds_its_index 2
              [Connect 10%nat true (ReadMessage [0]) true;
               Connect 11%nat true (ReadMessage [3]) false]
              3%nat (Player.mk 3 0 Team.b (Some 11%nat) false 0 0 0)
              eq_refl eq_refl) as [Hid [_ Hb]].
  split; [exact Hid|]. apply Hb. lia.
Defined.

(** X5: the server never touches its own point counters, nor the number
    of players it waits for: after any run both counters are 0 and
    [numPlayers] is what the server was started with. *)
Theorem points_are_never_counted (n : Z) (es : list event) :
  let s := srv (fst (exec (boot n) es)) in
  teamAPoints s = 0 /\ teamBPoints s = 0 /\ numPlayers s = n.
Proof.
  cbv zeta. destruct (reachable_registry_ok n es) as [_ _ _ _ _ [Hn [HA HB]]].
  auto.
Qed.

(** ** Faults of the receive loop *)






(** ** Teams at the start of a round *)

Lemma allDead_iff (ps : list player) :
  allDead ps = true <->
  forall p, In p ps -> isEmpty p = true \/ Player.isAlive p = false.
Proof.
  induction ps as [|p ps IH]; cbn [allDead].
  - split; [intros _ q [] | reflexivity].
  - destruct (isEmpty p) eqn:He; cbn [negb andb].
    + rewrite IH. split.
      * intros H q [<-|Hq]; [now left | now apply H].
      * intros H q Hq. apply H. now right.
    + destruct (Player.isAlive p) eqn:Ha.
      * split; [discriminate|]. intros H.
        destruct (H p (or_introl eq_refl)); congruence.
      * rewrite IH. split.
        -- intros H q [<-|Hq]; [now right | now apply H].
        -- intros H q Hq. apply H. now right.
Qed.

Lemma allDead_resetPlayers (ps : list player) :
  allDead (resetPlayers ps) = negb (existsb occupied ps).
Proof.
  induction ps as [|p ps IH]; [reflexivity|].
  cbn [resetPlayers map allDead existsb].
  change (map _ ps) with (resetPlayers ps). rewrite IH.
  change (isEmpty (Player.set_isAlive true (Player.set_health maxHealth p)))
    with (isEmpty p).
  cbn [Player.isAlive Player.set_isAlive]. rewrite andb_true_r.
  change (negb (isEmpty p)) with (occupied p).
  now destruct (occupied p).
Qed.

Lemma take_resetPlayers (k : nat) (ps : list player) :
  take k (resetPlayers ps) = resetPlayers (take k ps).
Proof.
  revert ps. induction k as [|k IH]; intros [|p ps]; try reflexivity.
  cbn. f_equal. apply IH.
Qed.

Lemma drop_resetPlayers (k : nat) (ps : list player) :
  drop k (resetPlayers ps) = resetPlayers (drop k ps).
Proof.
  revert ps. induction k as [|k IH]; intros [|p ps]; try reflexivity.
  apply IH.
Qed.

Lemma filter_occupied_resetPlayers (ps : list player) :
  map parcel (List.filter occupied (resetPlayers ps))
  = map parcel (List.filter occupied ps).
Proof.
  induction ps as [|p ps IH]; [reflexivity|].
  cbn [resetPlayers map List.filter]. change (map _ ps) with (resetPlayers ps).
  change (occupied (Player.set_isAlive true (Player.set_health maxHealth p)))
    with (occupied p).
  destruct (occupied p); cbn [map]; now rewrite IH.
Qed.

(** X7: the elimination checks read a team as eliminated when none of
    its occupied slots holds a living player; a team without any member
    is therefore eliminated from the start.  Right after a round
    transition every slot has health 3 and is alive, so a team is then
    eliminated exactly when it has no member; the transition moves
    nobody (the snapshot is the same before and after) and leaves the
    registry alone. *)
Theorem teams_at_round_start (s : server) :
  let s' := state_of (nextRound s) in
  let teamA := take (Z.to_nat maxTeamPlayers) (players s) in
  let teamB := drop (Z.to_nat maxTeamPlayers) (players s) in
  (isTeamAAllDead s = true <->
   forall p, In p teamA -> isEmpty p = true \/ Player.isAlive p = false) /\
  (isTeamBAllDead s = true <->
   forall p, In p teamB -> isEmpty p = true \/ Player.isAlive p = false) /\
  isTeamAAllDead s' = negb (existsb occupied teamA) /\
  isTeamBAllDead s' = negb (existsb occupied teamB) /\
  (forall p, In p (players s') ->
     Player.health p = maxHealth /\ Player.isAlive p = true) /\
  serialiseLocations s' = serialiseLocations s /\
  registry s' = registry s.
Proof.
  cbv zeta. split; [apply allDead_iff|]. split; [apply allDead_iff|].
  pose proof (keeps_registry_nextRound s) as Hreg.
  rewrite nextRound_eq in *. cbn [state_of] in *.
  unfold isTeamAAllDead, isTeamBAllDead, serialiseLocations.
  cbn [players set_players set_round].
  rewrite take_resetPlayers, drop_resetPlayers, !allDead_resetPlayers.
  repeat split; try exact Hreg.
  - apply in_map_iff in H as [q [<- _]]. reflexivity.
  - apply in_map_iff in H as [q [<- _]]. reflexivity.
  - rewrite !writeLocations_eq. now rewrite filter_occupied_resetPlayers.
Qed.

Lemma teams_at_round_start_witness :
  isTeamBAllDead (state_of (nextRound (newServer 1))) = true /\
  isTeamAAllDead (state_of (nextRound (srv duel))) = false.
Proof.
  split.
  - exact (proj1 (proj2 (proj2 (proj2 (teams_at_round_start (newServer 1)))))).
  - exact (proj1 (proj2 (proj2 (teams_at_round_start (srv duel))))).
Defined.

(** ** The broadcaster *)

Lemma fanout_writes_of (wok : connId -> bool) (m : list Z) (ps : list player) :
  writes_of (fanout wok m ps) = (fun c => (c, m)) <$> omap Player.conn ps.
Proof.
  induction ps as [|p ps IH]; [reflexivity|].
  unfold fanout in *. cbn [flat_map].
  unfold writes_of in *. rewrite omap_app, IH.
  cbn [omap list_omap].
  destruct (Player.conn p) as [c|]; [|reflexivity].
  destruct (wok c); reflexivity.
Qed.

Lemma connections_cons (p : player) (ps : list player) :
  omap Player.conn (p :: ps)
  = match Player.conn p with
    | Some c => c :: omap Player.conn ps
    | None => omap Player.conn ps
    end.
Proof. reflexivity. Qed.

Lemma length_connections (ps : list player) :
  Z.of_nat (length (omap Player.conn ps)) = count_occupied ps.
Proof.
  unfold count_occupied. induction ps as [|p ps IH]; [reflexivity|].
  rewrite connections_cons. cbn [List.filter].
  unfold occupied at 1, isEmpty.
  destruct (Player.conn p); cbn [negb length]; lia.
Qed.

(** X8: a broadcast is written once to the connection of every occupied
    slot, in slot order, with the frame unchanged, and to nobody else; a
    write that fails is logged and does not stop the others.  With no
    occupied slot nothing is written. *)
Theorem broadcast_reaches_every_occupied_slot
    (wok : connId -> bool) (m : list Z) (s : server) :
  writes_of (run_broadcast wok m s) = (fun c => (c, m)) <$> connections s /\
  Z.of_nat (length (writes_of (run_broadcast wok m s)))
    = count_occupied (players s) /\
  ((forall c, wok c = true) ->
   run_broadcast wok m s = (fun c => WriteMessage c m) <$> connections s) /\
  (forall c, In c (connections s) -> wok c = false ->
     In (LogErr errWrite) (run_broadcast wok m s)) /\
  (count_occupied (players s) = 0 -> run_broadcast wok m s = []).
Proof.
  unfold run_broadcast, connections.
  split; [apply fanout_writes_of|]. split; [|split; [|split]].
  - rewrite fanout_writes_of, length_fmap. apply length_connections.
  - intros Hok. induction (players s) as [|p ps IH]; [reflexivity|].
    rewrite connections_cons. unfold fanout in *. cbn [flat_map].
    rewrite IH. destruct (Player.conn p) as [c|]; [|reflexivity].
    now rewrite Hok.
  - intros c Hin Hfail. induction (players s) as [|p ps IH]; [contradiction|].
    rewrite connections_cons in Hin. unfold fanout. cbn [flat_map].
    apply in_or_app.
    destruct (Player.conn p) as [k|].
    + destruct Hin as [->|Hin]; [left | right; now apply IH].
      rewrite Hfail. right. now left.
    + right. now apply IH.
  - unfold count_occupied. intros H0.
    induction (players s) as [|p ps IH]; [reflexivity|].
    cbn [List.filter] in H0. unfold fanout. cbn [flat_map].
    unfold occupied at 1, isEmpty in H0.
    destruct (Player.conn p); cbn [negb length] in H0; [lia|].
    now apply IH.
Qed.

Lemma broadcast_reaches_every_occupied_slot_witness :
  (forall c : connId, (fun _ => true) c = true) /\
  run_broadcast (fun _ => true) [4; 0; 3] (srv duel)
  = [WriteMessage 10%nat [4; 0; 3]; WriteMessage 11%nat [4; 0; 3]].
Proof.
  split; [reflexivity|].
  exact (proj1 (proj2 (proj2
           (broadcast_reaches_every_occupied_slot (fun _ => true) [4; 0; 3]
              (srv duel)))) (fun _ => eq_refl)).
Defined.

(** ** What a message can change *)

Lemma keeps_fmap_update {X} (g : player -> X) (i : Z) (f : player -> player) :
  (forall p, g (f p) = g p) ->
  keeps (fun s => g <$> players s) (update_player i f).
Proof.
  intros Hf s. unfold update_player, bind, player_at.
  destruct ((0 <=? i) && (i <? maxPlayers)); [|reflexivity].
  destruct (players s !! Z.to_nat i) as [p|] eqn:Hp; [|reflexivity].
  cbn. rewrite list_fmap_insert, Hf.
  apply list_insert_id. now rewrite list_lookup_fmap, Hp.
Qed.

Lemma keeps_placement_handleHit (newP : player) (wok : bool) (m : list Z) :
  keeps placement (handleHit newP wok m).
Proof.
  unfold handleHit, placement.
  repeat first
    [ progress auto with registry_db
    | apply keeps_fmap_update; intros ?; reflexivity
    | apply keeps_bind; [|intros ?]
    | match goal with
      | |- keeps _ (if ?c then _ else _) => destruct c
      end ].
Qed.

Lemma keeps_vitals_handleLocation (newP : player) (m : list Z) :
  keeps vitals (handleLocation newP m).
Proof.
  unfold handleLocation, vitals.
  repeat first
    [ apply keeps_fmap_update; intros ?; reflexivity
    | apply keeps_bind; [|intros ?] ].
Qed.

Lemma loop_body_break
    (s : server) (newP : player) (wok : bool) (r : readResult) :
  value_of (loop_body newP r wok s) = Some Break <-> r = ReadClose.
Proof.
  destruct r as [m| |]; cbn; [|now split|split; discriminate].
  destruct (length m =? 0)%nat; [split; discriminate|].
  unfold bind. destruct (dispatch newP wok m s); cbn; split; discriminate.
Qed.

(** A read that does not end the loop leaves the registry alone, through
    the whole step of the connection. *)
Lemma receive_keeps_registry
    (sys : system) (c : connId) (r : readResult) (wok : bool) :
  r <> ReadClose ->
  registry (srv (fst (step sys (Receive c r wok)))) = registry (srv sys).
Proof.
  intros Hne. unfold step. destruct (exited sys); [reflexivity|].
  destruct (find_loop c (loops sys)) as [p|]; [|reflexivity].
  pose proof (keeps_registry_loop_body p r wok (srv sys)) as Hk.
  pose proof (loop_body_break (srv sys) p wok r) as Hb.
  unfold bind.
  destruct (loop_body p r wok (srv sys)) as [[|] s1 o1|e s1 o1];
    cbn in *; [exact Hk| |exact Hk].
  exfalso. apply Hne. now apply Hb.
Qed.

(** X9: one pass of the receive loop, for a message, well-formed or not
    and whether its handler returns or panics, or for a read error that
    is not a close, changes neither who holds which slot nor the live
    count, the point counters or the round; a message that is not a
    Location moves nobody, and a message that is not a Hit changes
    nobody's health or alive flag.  The pass ends the loop exactly when
    the read reported a close: only then does [serveWs] go on to the
    cleanup that clears the slot and decrements the live count; after
    any other read the whole step of the connection leaves the registry
    as it was. *)
Theorem messages_change_only_their_own_fields
    (s : server) (newP : player) (wok : bool) (r : readResult) :
  let s' := state_of (loop_body newP r wok s) in
  registry s' = registry s /\
  round s' = round s /\
  (forall m, r = ReadMessage m -> byte_at 0 m <> locationMessage ->
             placement s' = placement s) /\
  (forall m, r = ReadMessage m -> byte_at 0 m <> hitMessage ->
             vitals s' = vitals s) /\
  (value_of (loop_body newP r wok s) = Some Break <-> r = ReadClose) /\
  (forall (sys : system) (c : connId),
     r <> ReadClose ->
     registry (srv (fst (step sys (Receive c r wok)))) = registry (srv sys)).
Proof.
  cbv zeta. split; [apply keeps_registry_loop_body|].
  split; [apply keeps_round_loop_body|].
  split; [|split; [|split; [apply loop_body_break|]]].
  - intros m -> Hk. unfold loop_body.
    destruct (length m =? 0)%nat; [reflexivity|].
    unfold bind.
    assert (H : keeps placement (dispatch newP wok m)).
    { unfold dispatch.
      destruct (byte_at 0 m =? hitMessage).
      - destruct (negb (length m =? 3)%nat);
          [apply keeps_emit | apply keeps_placement_handleHit].
      - destruct (byte_at 0 m =? shotMessage); [apply keeps_broadcast|].
        destruct (Z.eqb_spec (byte_at 0 m) locationMessage);
          [contradiction | apply keeps_emit]. }
    specialize (H s).
    destruct (dispatch newP wok m s); cbn in *; exact H.
  - intros m -> Hk. unfold loop_body.
    destruct (length m =? 0)%nat; [reflexivity|].
    unfold bind.
    assert (H : keeps vitals (dispatch newP wok m)).
    { unfold dispatch.
      destruct (Z.eqb_spec (byte_at 0 m) hitMessage); [contradiction|].
      destruct (byte_at 0 m =? shotMessage); [apply keeps_broadcast|].
      destruct (byte_at 0 m =? locationMessage); [|apply keeps_emit].
      destruct (negb (length m =? 4)%nat);
        [apply keeps_emit | apply keeps_vitals_handleLocation]. }
    specialize (H s).
    destruct (dispatch newP wok m s); cbn in *; exact H.
  - intros sys c. apply receive_keeps_registry.
Qed.

Lemma messages_change_only_their_own_fields_witness :
  byte_at 0 [hitMessage; 3; 3] <> locationMessage /\
  placement (state_of (loop_body player0 (hit 3 3) true (srv duel_playing)))
  = placement (srv duel_playing).
Proof.
  assert (H : byte_at 0 [hitMessage; 3; 3] <> locationMessage)
    by discriminate.
  split; [exact H|].
  exact (proj1 (proj2 (proj2
           (messages_change_only_their_own_fields (srv duel_playing) player0
              true (hit 3 3)))) [hitMessage; 3; 3] eq_refl H).
Defined.

(** ** Filling the lobby, and leaving it *)

Section Lobby.
Context (s : server) (c : connId) (m : list Z) (i : Z) (p : player).
Hypothesis Hroom : currentNumPlayers s < numPlayers s.
Hypothesis Hround : round s = 0.
Hypothesis Hm : asks_slot m i.
Hypothesis Hp : players s !! Z.to_nat i = Some p.
Hypothesis He : isEmpty p = true.

(** X10: a handshake that succeeds while the lobby is open writes the
    success byte and enters the receive loop as [newPlayer]; exactly when
    it brings the live count to the configured number it also starts
    round 1 at once: the NextRound broadcast, the Play timer, and full
    health for every slot.  Otherwise the round stays 0 and nothing else
    is emitted. *)
Theorem last_handshake_starts_round_one :
  let r := serveWs_enter c true (ReadMessage m) true s in
  let filled := wrap_int (currentNumPlayers s + 1) =? numPlayers s in
  value_of r = Some (Some (newPlayer i c)) /\
  output_of r
    = WriteMessage c [success]
        :: (if filled
            then [Broadcast [header_byte nextRoundHeader];
                  AfterFunc roundStartGraceTime playTask]
            else []) /\
  round (state_of r) = (if filled then 1 else 0) /\
  (filled = true ->
   forall q, In q (players (state_of r)) ->
             Player.health q = maxHealth /\ Player.isAlive q = true).
Proof.
  cbv zeta.
  rewrite (enter_join s c m true i p) by (assumption || lia).
  cbn [currentNumPlayers numPlayers set_players set_currentNumPlayers].
  destruct (wrap_int (currentNumPlayers s + 1) =? numPlayers s).
  - unfold bind. rewrite nextRound_eq.
    cbn [round set_players set_currentNumPlayers]. rewrite Hround.
    change (0 =? lastRound) with false.
    cbn [prepend ret value_of output_of state_of app].
    repeat split.
    + apply in_map_iff in H0 as [q' [<- _]]. reflexivity.
    + apply in_map_iff in H0 as [q' [<- _]]. reflexivity.
  - cbn [prepend value_of output_of state_of app].
    repeat split; [exact Hround | discriminate | discriminate].
Qed.
End Lobby.

Lemma last_handshake_starts_round_one_witness :
  (currentNumPlayers (newServer 1) < numPlayers (newServer 1)
   /\ asks_slot [4] 4) /\
  output_of (serveWs_enter 10%nat true (ReadMessage [4]) true (newServer 1))
  = [WriteMessage 10%nat [0]; Broadcast [0]; AfterFunc 8 playTask].
Proof.
  assert (Hroom : currentNumPlayers (newServer 1) < numPlayers (newServer 1))
    by (cbn; lia).
  assert (Hm : asks_slot [4] 4) by (split; [reflexivity | lia]).
  split; [split; assumption|].
  exact (proj1 (proj2
           (last_handshake_starts_round_one (newServer 1) 10%nat [4] 4
              Player.zero Hroom eq_refl Hm eq_refl eq_refl))).
Defined.

Section JoinLeave.
Context (s : server) (c : connId) (m : list Z) (i : Z).
Hypothesis Hroom : currentNumPlayers s < numPlayers s.
Hypothesis Hlobby : round s <= 0.
Hypothesis Hm : asks_slot m i.
Hypothesis Hp : players s !! Z.to_nat i = Some Player.zero.
Hypothesis Hopen : wrap_int (currentNumPlayers s + 1) <> numPlayers s.
Hypothesis Hcount : int_min <= currentNumPlayers s < int_max.

(** X11: while the lobby stays open, a handshake into a slot that holds
    the zero player followed by a graceful close undoes itself: the
    cleanup returns the server to exactly the state before the
    handshake, and the only trace is the disconnect broadcast of the
    slot's id. *)
Theorem join_then_leave_restores_server :
  let r := serveWs_enter c true (ReadMessage m) true s in
  value_of r = Some (Some (newPlayer i c)) /\
  disconnect (newPlayer i c) (state_of r)
  = Ok tt s [Broadcast [header_byte playerDisconnectHeader; to_byte i]].
Proof.
  cbv zeta.
  rewrite (enter_join s c m true i Player.zero)
    by (assumption || reflexivity).
  cbn [currentNumPlayers numPlayers set_players set_currentNumPlayers].
  destruct (Z.eqb_spec (wrap_int (currentNumPlayers s + 1)) (numPlayers s))
    as [Heq|_]; [contradiction|].
  cbn [prepend value_of state_of]. split; [reflexivity|].
  destruct Hm as [_ Hi].
  assert (Hlt : (Z.to_nat i < length (players s))%nat)
    by now apply lookup_lt_Some in Hp.
  unfold disconnect. cbn [newPlayer Player.id].
  rewrite (bind_update_player _ i (newPlayer i c))
    by (unfold maxPlayers; lia
        || (cbn; now apply list_lookup_insert_eq)).
  rewrite bind_modify.
  cbn [currentNumPlayers numPlayers set_players set_currentNumPlayers players].
  rewrite list_insert_insert_eq, (list_insert_id _ _ _ Hp).
  rewrite (wrap_int_id (currentNumPlayers s + 1))
    by (unfold int_min, int_max in *; lia).
  replace (currentNumPlayers s + 1 - 1) with (currentNumPlayers s) by lia.
  rewrite wrap_int_id by (unfold int_min, int_max in *; lia).
  unfold broadcastByteMessage, emit. destruct s; reflexivity.
Qed.
End JoinLeave.

Lemma join_then_leave_restores_server_witness :
  (currentNumPlayers (newServer 2) < numPlayers (newServer 2)
   /\ asks_slot [5] 5
   /\ wrap_int (currentNumPlayers (newServer 2) + 1) <> numPlayers (newServer 2))
  /\ disconnect (newPlayer 5 10%nat)
       (state_of (serveWs_enter 10%nat true (ReadMessage [5]) true
                    (newServer 2)))
     = Ok tt (newServer 2) [Broadcast [7; 5]].
Proof.
  assert (Hroom : currentNumPlayers (newServer 2) < numPlayers (newServer 2))
    by (cbn; lia).
  assert (Hm : asks_slot [5] 5) by (split; [reflexivity | lia]).
  assert (Hopen : wrap_int (currentNumPlayers (newServer 2) + 1)
                  <> numPlayers (newServer 2)) by (vm_compute; discriminate).
  assert (Hcount : int_min <= currentNumPlayers (newServer 2) < int_max)
    by (vm_compute; split; [discriminate | reflexivity]).
  split; [exact (conj Hroom (conj Hm Hopen))|].
  exact (proj2 (join_then_leave_restores_server (newServer 2) 10%nat [5] 5
                  Hroom ltac:(cbn; lia) Hm eq_refl Hopen Hcount)).
Defined.

(** ** Properties of the single slots *)

Section Slots.
Context (Q : player -> Prop).

Lemma keeps_slots_same {A} (m : M A) :
  (forall s, players (state_of (m s)) = players s) -> keeps_slots Q m.
Proof. intros H s Hs. now rewrite H. Qed.

Lemma keeps_slots_bind {A B} (m : M A) (k : A -> M B) :
  keeps_slots Q m -> (forall v, keeps_slots Q (k v)) ->
  keeps_slots Q (bind m k).
Proof.
  intros Hm Hk s Hs. unfold bind. specialize (Hm s Hs).
  destruct (m s) as [v s1 o1|]; [|exact Hm].
  rewrite state_of_prepend. now apply Hk.
Qed.

Lemma keeps_slots_player_at (i : Z) : keeps_slots Q (player_at i).
Proof.
  apply keeps_slots_same. intros s. unfold player_at.
  destruct ((0 <=? i) && (i <? maxPlayers)); [|reflexivity].
  now destruct (players s !! Z.to_nat i).
Qed.

Lemma keeps_slots_update (i : Z) (f : player -> player) :
  (forall p, Q p -> Q (f p)) -> keeps_slots Q (update_player i f).
Proof.
  intros Hf s Hs. unfold update_player, bind, player_at.
  destruct ((0 <=? i) && (i <? maxPlayers)); [|exact Hs].
  destruct (players s !! Z.to_nat i) as [p|] eqn:Hp; [|exact Hs].
  cbn. apply Forall_insert; [exact Hs|].
  apply Hf. exact (Forall_lookup_1 _ _ _ _ Hs Hp).
Qed.

Lemma keeps_slots_nextRound :
  (forall p, Q p ->
             Q (Player.set_isAlive true (Player.set_health maxHealth p))) ->
  keeps_slots Q nextRound.
Proof.
  intros Hf s Hs. rewrite nextRound_eq. cbn.
  induction Hs as [|p ps Hp Hps IH]; constructor; auto.
Qed.
End Slots.

Lemma int8_position_zero : int8_position Player.zero.
Proof. unfold int8_position. cbn. lia. Qed.

Lemma int8_position_newPlayer (i : Z) (c : connId) :
  int8_position (newPlayer i c).
Proof. unfold int8_position. cbn. lia. Qed.

(** Walks through a handler, discharging what each slot update does to
    the coordinates. *)
Ltac keeps_int8_tac :=
  repeat first
    [ apply keeps_slots_update;
      first [ intros ? _; first [ apply int8_position_zero
                                | apply int8_position_newPlayer ]
            | intros ? [? [? ?]]; unfold int8_position; cbn;
              auto using to_int8_range ]
    | apply keeps_slots_player_at
    | apply keeps_slots_nextRound; intros ? H; exact H
    | apply keeps_slots_bind; [|intros ?]
    | apply keeps_slots_same; intros ?; reflexivity
    | match goal with
      | |- keeps_slots _ (if ?c then _ else _) => destruct c
      | |- keeps_slots _ (match ?c with _ => _ end) => destruct c
      end ].

Lemma keeps_int8_loop_body (newP : player) (r : readResult) (wok : bool) :
  keeps_slots int8_position (loop_body newP r wok).
Proof.
  unfold loop_body, dispatch, handleHit, handleLocation, write_logged,
    deref, broadcastByteMessage.
  keeps_int8_tac.
Qed.

Lemma keeps_int8_disconnect (newP : player) :
  keeps_slots int8_position (disconnect newP).
Proof. unfold disconnect, broadcastByteMessage. keeps_int8_tac. Qed.

Lemma keeps_int8_serveWs_enter
    (c : connId) (u : bool) (r : readResult) (wok : bool) :
  keeps_slots int8_position (serveWs_enter c u r wok).
Proof. unfold serveWs_enter, initialisePlayer. keeps_int8_tac. Qed.

Lemma keeps_int8_run_task (t : task) :
  keeps_slots int8_position (run_task t).
Proof.
  destruct t; unfold run_task, broadcastByteMessage; keeps_int8_tac.
Qed.

Lemma step_int8 (sys : system) (e : event) :
  Forall int8_position (players (srv sys)) ->
  Forall int8_position (players (srv (fst (step sys e)))).
Proof.
  intros Hs. unfold step. destruct (exited sys); [exact Hs|].
  destruct e as [c u r wok|c r wok|k|wok].
  - pose proof (keeps_int8_serveWs_enter c u r wok (srv sys) Hs) as H.
    destruct (serveWs_enter c u r wok (srv sys)) as [[q|] s1 o|e s1 o];
      exact H.
  - destruct (find_loop c (loops sys)) as [p|]; [|exact Hs].
    assert (Hk : keeps_slots int8_position
                   (ctl <- loop_body p r wok ;;
                    match ctl with
                    | Continue => ret Continue
                    | Break => disconnect p ;;; ret Break
                    end)).
    { apply keeps_slots_bind; [apply keeps_int8_loop_body|].
      intros [|]; [keeps_int8_tac|].
      apply keeps_slots_bind; [apply keeps_int8_disconnect|].
      intros _. keeps_int8_tac. }
    specialize (Hk (srv sys) Hs).
    destruct ((ctl <- loop_body p r wok ;;
               match ctl with
               | Continue => ret Continue
               | Break => disconnect p ;;; ret Break
               end) (srv sys)) as [[|] s1 o|e s1 o]; exact Hk.
  - destruct (timers sys !! k) as [[dl t]|]; [|exact Hs].
    pose proof (keeps_int8_run_task t (srv sys) Hs) as H.
    destruct (run_task t (srv sys)); exact H.
  - exact Hs.
Qed.

Lemma exec_int8 (es : list event) :
  forall sys : system,
    Forall int8_position (players (srv sys)) ->
    Forall int8_position (players (srv (fst (exec sys es)))).
Proof.
  induction es as [|e es IH]; intros sys Hs; [exact Hs|].
  rewrite exec_cons. cbn [fst]. apply IH. now apply step_int8.
Qed.

Lemma reachable_int8 (n : Z) (es : list event) (i : nat) (p : player) :
  players (srv (fst (exec (boot n) es))) !! i = Some p -> int8_position p.
Proof.
  intros Hp.
  assert (H : Forall int8_position (players (srv (fst (exec (boot n) es))))).
  { apply exec_int8. cbn. repeat constructor; cbn; lia. }
  exact (Forall_lookup_1 _ _ _ _ H Hp).
Qed.

(** X12: whatever the events, every coordinate stored in a slot is an
    int8 value, so the byte a snapshot carries for it reads back, as an
    int8, to the stored coordinate. *)
Theorem stored_coordinates_are_int8
    (n : Z) (es : list event) (i : nat) (p : player) :
  players (srv (fst (exec (boot n) es))) !! i = Some p ->
  int8_position p /\
  to_int8 (to_byte (Player.x p)) = Player.x p /\
  to_int8 (to_byte (Player.y p)) = Player.y p /\
  to_int8 (to_byte (Player.z p)) = Player.z p.
Proof.
  intros Hp. pose proof (reachable_int8 n es i p Hp) as [Hx [Hy Hz]].
  split; [exact (conj Hx (conj Hy Hz))|].
  now rewrite !to_int8_to_byte.
Qed.

Lemma stored_coordinates_are_int8_witness :
  to_int8 (to_byte (-6)) = -6.
Proof.
  exact (proj2 (proj2 (proj2
           (stored_coordinates_are_int8 2 located_events 3%nat
              (Player.mk 3 3 Team.b (Some 11%nat) true 8 0 (-6))
              eq_refl)))).
Defined.

(** ** The client reads the snapshot *)

Lemma readParcels_snapshot (self : Z) (ps : list player) :
  forall (k : nat) (done todo : list Client.otherPlayer),
    (forall (j : nat) (p : player),
       ps !! j = Some p -> occupied p = true ->
       Player.id p = Z.of_nat (k + j)) ->
    length done = k -> length todo = length ps ->
    (k + length ps <= Z.to_nat maxPlayers)%nat ->
    Client.readParcels self
      (concat (map parcel (List.filter occupied ps))) (done ++ todo)
    = Some (done ++ zip_with (seen self) ps todo).
Proof.
  induction ps as [|p ps IH]; intros k done todo Hid Hdone Htodo Hmax.
  - destruct todo; [reflexivity | discriminate].
  - destruct todo as [|o todo]; [discriminate|].
    cbn [length] in Htodo, Hmax. injection Htodo as Htodo.
    assert (Hrest : forall (j : nat) (q : player),
               ps !! j = Some q -> occupied q = true ->
               Player.id q = Z.of_nat (S k + j)).
    { intros j q Hq Ho. rewrite (Hid (S j) q Hq Ho). f_equal. lia. }
    cbn [List.filter zip_with]. unfold seen at 1.
    destruct (occupied p) eqn:Ho; cbn [andb].
    + cbn [map concat parcel app Client.readParcels].
      pose proof (Hid 0%nat p eq_refl Ho) as Hk.
      rewrite Nat.add_0_r in Hk.
      assert (Hb : to_byte (Player.id p) = Z.of_nat k).
      { rewrite Hk. unfold to_byte. apply Z.mod_small.
        unfold maxPlayers in Hmax. lia. }
      rewrite Hb, <- Hk.
      destruct (Player.id p =? self); cbn [negb].
      * replace (done ++ o :: todo) with ((done ++ [o]) ++ todo)
          by now rewrite <- app_assoc.
        rewrite (IH (S k) (done ++ [o]) todo Hrest); try lia.
        -- now rewrite <- app_assoc.
        -- rewrite length_app. cbn. lia.
      * replace ((0 <=? Player.id p) && (Player.id p <? maxPlayers))
          with true by (unfold maxPlayers in *; lia).
        rewrite Hk, Nat2Z.id.
        rewrite list_lookup_middle by auto.
        rewrite insert_app_r_alt by lia.
        rewrite Hdone, Nat.sub_diag.
        change (<[0%nat := ?x]> (o :: todo)) with (x :: todo).
        match goal with
        | |- Client.readParcels _ _ (done ++ ?o' :: todo) = _ =>
            replace (done ++ o' :: todo) with ((done ++ [o']) ++ todo)
              by now rewrite <- app_assoc
        end.
        rewrite (IH (S k) _ todo Hrest); try lia.
        -- now rewrite <- app_assoc.
        -- rewrite length_app. cbn. lia.
    + replace (done ++ o :: todo) with ((done ++ [o]) ++ todo)
        by now rewrite <- app_assoc.
      rewrite (IH (S k) (done ++ [o]) todo Hrest); try lia.
      * now rewrite <- app_assoc.
      * rewrite length_app. cbn. lia.
Qed.

(** X13: a client whose id is [self] and whose array of other players
    has its six entries reads every snapshot of a running server without
    a fault.  The record of every occupied slot other than its own gets
    the coordinates stored in the server, and becomes alive if it was
    non-existent; the records of the empty slots and of its own slot are
    left as they were. *)
Theorem client_reads_every_snapshot
    (n : Z) (es : list event) (self : Z)
    (others : list Client.otherPlayer) :
  length others = Z.to_nat maxPlayers ->
  let s := srv (fst (exec (boot n) es)) in
  exists others' : list Client.otherPlayer,
    Client.handleLocations self (serialiseLocations s) others = Some others'
    /\ length others' = Z.to_nat maxPlayers
    /\ forall (j : nat) (p : player) (o : Client.otherPlayer),
         players s !! j = Some p -> others !! j = Some o ->
         others' !! j
         = Some (if occupied p && negb (Z.of_nat j =? self)
                 then Client.located
                        (Player.x p, Player.y p, Player.z p) o
                 else o).
Proof.
  intros Hlen. cbv zeta.
  set (s := srv (fst (exec (boot n) es))).
  destruct (reachable_registry_ok n es) as [Hsix Hslots _ _ _ _].
  fold s in Hsix, Hslots.
  exists (zip_with (seen self) (players s) others).
  split; [|split].
  - unfold Client.handleLocations, serialiseLocations.
    rewrite writeLocations_eq. cbn [app drop].
    apply (readParcels_snapshot self (players s) 0 [] others);
      try lia; try reflexivity.
    intros j p Hp Ho. apply Hslots; [exact Hp|].
    unfold occupied in Ho. now destruct (isEmpty p).
  - rewrite length_zip_with; lia.
  - intros j p o Hp Ho. rewrite lookup_zip_with, Hp, Ho. cbn.
    f_equal. unfold seen.
    destruct (occupied p) eqn:Hocc; [|reflexivity]. cbn [andb].
    assert (Hid : Player.id p = Z.of_nat j).
    { apply Hslots; [exact Hp|]. unfold occupied in Hocc.
      now destruct (isEmpty p). }
    rewrite Hid. destruct (Z.of_nat j =? self); [reflexivity|]. cbn [negb].
    destruct (reachable_int8 n es j p Hp) as [Hx [Hy Hz]].
    now rewrite !to_int8_to_byte.
Qed.

Lemma client_reads_every_snapshot_witness :
  length (replicate 6 Client.zero) = Z.to_nat maxPlayers /\
  exists others' : list Client.otherPlayer,
    Client.handleLocations 0
      (serialiseLocations (srv (fst (exec (boot 2) located_events))))
      (replicate 6 Client.zero)
    = Some others'
    /\ others' !! 3%nat = Some (Client.mkOther 0 0 (8, 0, -6) Client.alive)
    /\ others' !! 0%nat = Some Client.zero.
Proof.
  split; [reflexivity|].
  destruct (client_reads_every_snapshot 2 located_events 0
              (replicate 6 Client.zero) eq_refl) as [others' [H [_ Hp]]].
  exists others'. split; [exact H|]. split.
  - exact (Hp 3%nat (Player.mk 3 3 Team.b (Some 11%nat) true 8 0 (-6))
             Client.zero eq_refl eq_refl).
  - exact (Hp 0%nat (Player.mk 0 3 Team.a (Some 10%nat) true 0 0 0)
             Client.zero eq_refl eq_refl).
Defined.

(** ** The health-loss notice *)

Section HitNotice.
Context (s : server) (newP : player) (wok : bool) (t d : Z)
        (p : player) (c : connId).
Hypothesis Hrange : 0 <= t < maxPlayers.
Hypothesis Hslot : players s !! Z.to_nat t = Some p.
Hypothesis Hconn : Player.conn p = Some c.

(** X14: a Hit on an occupied slot writes exactly one frame itself: the
    LoseHealth notice with the damage byte, to the connection of the
    target and to no other, and before anything it broadcasts.  A failed
    write of the notice is logged, by one line right after the write, and
    changes nothing else: what the handler emits is what it emits when
    the write succeeds with that one line added, so server state and
    broadcasts are the same; a write that succeeds logs nothing. *)
Theorem hit_notifies_only_the_target :
  let r := loop_body newP (hit t d) wok s in
  writes_of (output_of r) = [(c, [header_byte loseHealthHeader; to_byte d])]
  /\ head (output_of r)
     = Some (WriteMessage c [header_byte loseHealthHeader; to_byte d])
  /\ state_of r = state_of (loop_body newP (hit t d) true s)
  /\ List.filter (fun o => match o with Broadcast _ => true | _ => false end)
       (output_of r)
     = List.filter (fun o => match o with Broadcast _ => true | _ => false end)
         (output_of (loop_body newP (hit t d) true s))
  /\ output_of r
     = WriteMessage c [header_byte loseHealthHeader; to_byte d]
         :: (if wok then [] else [LogErr errWrite])
         ++ tail (output_of (loop_body newP (hit t d) true s))
  /\ List.filter (fun o => match o with LogErr _ => true | _ => false end)
       (output_of r)
     = (if wok then [] else [LogErr errWrite]).
Proof.
  cbv zeta.
  rewrite !(state_after_hit s newP _ t d p c Hrange Hslot Hconn).
  rewrite !(output_after_hit s newP _ t d p c Hrange Hslot Hconn).
  rewrite !(handleHit_eq s newP _ t d p c Hrange Hslot Hconn).
  cbv zeta.
  destruct (Player.health
              (Player.set_health (wrap_int (Player.health p - d)) p) <? 1).
  - match goal with
    | |- context [if ?b1 then teamPoint Team.b
                  else if ?b2 then teamPoint Team.a else []] =>
        destruct b1; [|destruct b2]
    end; destruct wok; repeat split; reflexivity.
  - destruct wok; repeat split; reflexivity.
Qed.
End HitNotice.

Lemma hit_notifies_only_the_target_witness :
  0 <= 3 < maxPlayers /\
  writes_of (output_of (loop_body player0 (hit 3 1) false (srv duel_playing)))
  = [(11%nat, [6; 1])] /\
  List.filter (fun o => match o with LogErr _ => true | _ => false end)
    (output_of (loop_body player0 (hit 3 1) false (srv duel_playing)))
  = [LogErr errWrite].
Proof.
  assert (Hr : 0 <= 3 < maxPlayers) by (unfold maxPlayers; lia).
  split; [exact Hr|].
  pose proof (hit_notifies_only_the_target (srv duel_playing) player0 false
                3 1 (Player.mk 3 3 Team.b (Some 11%nat) true 0 0 0) 11%nat
                Hr eq_refl eq_refl) as T.
  split; [exact (proj1 T) | exact (proj2 (proj2 (proj2 (proj2 (proj2 T)))))].
Defined.

(** ** The round counter and the NextRound broadcasts *)

Lemma paced_nextRound : paced nextRound.
Proof.
  intros s. right. rewrite nextRound_eq. cbn [state_of output_of].
  split; [reflexivity|]. now destruct (round s =? lastRound).
Qed.

Lemma paced_serveWs_enter
    (c : connId) (u : bool) (r : readResult) (wok : bool) :
  paced (serveWs_enter c u r wok).
Proof.
  unfold serveWs_enter.
  apply paced_bind_l; [quiet_tac|]. intros s0.
  destruct (numPlayers s0 <=? currentNumPlayers s0);
    [apply quiet_paced; unfold ret; quiet_tac|].
  destruct (0 <? round s0); [apply quiet_paced; unfold ret; quiet_tac|].
  destruct (negb u); [apply quiet_paced; unfold ret; quiet_tac|].
  apply paced_bind_l; [apply quiet_initialisePlayer|]. intros res.
  destruct (snd res); [apply quiet_paced; unfold ret; quiet_tac|].
  apply paced_bind_l; [quiet_tac|]. intros s1.
  apply paced_bind_r; [|intros _; unfold ret; quiet_tac].
  destruct (currentNumPlayers s1 =? numPlayers s1);
    [apply paced_nextRound | apply quiet_paced; unfold ret; quiet_tac].
Qed.

Lemma paced_run_task (t : task) : paced (run_task t).
Proof.
  destruct t; cbn [run_task];
    [apply paced_nextRound
    | apply quiet_paced; unfold broadcastByteMessage; quiet_tac
    | apply quiet_paced; unfold ret; quiet_tac].
Qed.

Lemma step_paced (sys : system) (e : event) :
  (round (srv (fst (step sys e))) = round (srv sys)
   /\ broadcasts_of nextRoundHeader (snd (step sys e)) = [])
  \/ (round (srv (fst (step sys e))) = wrap_int (round (srv sys) + 1)
      /\ length (broadcasts_of nextRoundHeader (snd (step sys e))) = 1%nat).
Proof.
  unfold step. destruct (exited sys); [left; now split|].
  destruct e as [c u r wok|c r wok|k|wok].
  - pose proof (paced_serveWs_enter c u r wok (srv sys)) as H.
    destruct (serveWs_enter c u r wok (srv sys)) as [[p|] s1 o|e s1 o];
      exact H.
  - destruct (find_loop c (loops sys)) as [p|]; [|left; now split].
    assert (Hk : quiet (ctl <- loop_body p r wok ;;
                        match ctl with
                        | Continue => ret Continue
                        | Break => disconnect p ;;; ret Break
                        end)).
    { apply quiet_bind; [apply quiet_loop_body|].
      intros [|]; [unfold ret; quiet_tac|].
      apply quiet_bind; [apply quiet_disconnect|].
      intros _. unfold ret. quiet_tac. }
    specialize (Hk (srv sys)). left.
    destruct ((ctl <- loop_body p r wok ;;
               match ctl with
               | Continue => ret Continue
               | Break => disconnect p ;;; ret Break
               end) (srv sys)) as [[|] s1 o|e s1 o]; exact Hk.
  - destruct (timers sys !! k) as [[dl t]|]; [|left; now split].
    pose proof (paced_run_task t (srv sys)) as H.
    destruct (run_task t (srv sys)); exact H.
  - left. split; [reflexivity|]. cbn [snd]. unfold run_tick.
    destruct (round (srv sys) =? 0); [reflexivity|].
    unfold fanout, broadcasts_of.
    induction (players (srv sys)) as [|p ps IH]; [reflexivity|].
    cbn [flat_map]. rewrite List.filter_app, IH, app_nil_r.
    destruct (Player.conn p) as [c|]; [|reflexivity].
    now destruct (wok c).
Qed.

Lemma exec_counts_rounds (es : list event) :
  forall sys : system,
    0 <= round (srv sys) ->
    round (srv sys) + Z.of_nat (length es) <= int_max ->
    round (srv (fst (exec sys es)))
    = round (srv sys)
      + Z.of_nat (length (broadcasts_of nextRoundHeader (snd (exec sys es)))).
Proof.
  induction es as [|e es IH]; intros sys H0 Hmax.
  - cbn. lia.
  - rewrite exec_cons. cbn [fst snd]. cbn [length] in Hmax.
    rewrite broadcasts_of_app, length_app.
    destruct (step_paced sys e) as [[Hr Ho]|[Hr Ho]].
    + rewrite IH by lia. rewrite Hr, Ho. cbn [length]. lia.
    + rewrite wrap_int_id in Hr by (unfold int_min, int_max in *; lia).
      rewrite IH by lia. rewrite Hr, Ho. lia.
Qed.

(** X15: the round counter is the number of NextRound broadcasts the
    process has emitted since it started (for any run short enough for
    the counter not to wrap): a client that counts the NextRound frames
    it receives knows the server's round. *)
Theorem round_counts_nextRound_broadcasts (n : Z) (es : list event) :
  Z.of_nat (length es) <= int_max ->
  round (srv (fst (exec (boot n) es)))
  = Z.of_nat (length (broadcasts_of nextRoundHeader
                        (snd (exec (boot n) es)))).
Proof.
  intros Hlen. rewrite exec_counts_rounds; cbn; lia.
Qed.

Lemma round_counts_nextRound_broadcasts_witness :
  Z.of_nat (length (located_events ++ duel_round ++ duel_round)) <= int_max /\
  round (srv (fst (exec (boot 2)
                     (located_events ++ duel_round ++ duel_round)))) = 3.
Proof.
  assert (H : Z.of_nat (length (located_events ++ duel_round ++ duel_round))
              <= int_max) by (vm_compute; discriminate).
  split; [exact H|].
  exact (round_counts_nextRound_broadcasts 2 _ H).
Defined.

(** ** The exit of the process *)

Lemma scheduled_app (o1 o2 : list output) :
  scheduled (o1 ++ o2) = scheduled o1 ++ scheduled o2.
Proof.
  induction o1 as [|o o1 IH]; [reflexivity|].
  destruct o; cbn; now rewrite ?IH.
Qed.

Lemma has_exit_app (t1 t2 : list (Z * task)) :
  has_exit (t1 ++ t2) = has_exit t1 || has_exit t2.
Proof. apply existsb_app. Qed.

Lemma calm_bind {A B} (m : M A) (k : A -> M B) :
  calm m -> (forall v, calm (k v)) -> calm (bind m k).
Proof.
  intros Hm Hk s. unfold bind. destruct (Hm s) as [Hr Ho].
  destruct (m s) as [v s1 o1|]; [|now split].
  destruct (Hk v s1) as [Hr' Ho'].
  rewrite state_of_prepend, output_of_prepend, scheduled_app, has_exit_app.
  cbn [state_of output_of] in Hr, Ho. rewrite Ho, Ho', Hr', Hr. now split.
Qed.

Lemma calm_same {A} (m : M A) :
  (forall s, state_of (m s) = s /\ output_of (m s) = []) -> calm m.
Proof. intros H s. destruct (H s) as [-> ->]. now split. Qed.

Lemma calm_emit (o : output) :
  has_exit (scheduled [o]) = false -> calm (emit o).
Proof. intros H s. now split. Qed.

Lemma calm_player_at (i : Z) : calm (player_at i).
Proof.
  intros s. unfold player_at.
  destruct ((0 <=? i) && (i <? maxPlayers)); [|now split].
  destruct (players s !! Z.to_nat i); now split.
Qed.

Lemma calm_modify (f : server -> server) :
  (forall s, round (f s) = round s) -> calm (modify f).
Proof. intros H s. cbn. now split. Qed.

(** Walks through a handler that does not run [nextRound]. *)
Ltac calm_tac :=
  repeat first
    [ apply calm_player_at
    | apply calm_emit; reflexivity
    | apply calm_modify; intros ?; reflexivity
    | apply calm_same; intros ?; split; reflexivity
    | apply calm_bind; [|intros ?]
    | match goal with
      | |- calm (if ?c then _ else _) => destruct c
      | |- calm (match ?c with _ => _ end) => destruct c
      end ].

Lemma calm_loop_body (newP : player) (r : readResult) (wok : bool) :
  calm (loop_body newP r wok).
Proof.
  unfold loop_body, dispatch, handleHit, handleLocation, update_player,
    write_logged, deref, broadcastByteMessage, ret, raise.
  calm_tac.
Qed.

Lemma calm_disconnect (newP : player) : calm (disconnect newP).
Proof. unfold disconnect, update_player, broadcastByteMessage. calm_tac. Qed.

Lemma calm_initialisePlayer (c : connId) (r : readResult) (wok : bool) :
  calm (initialisePlayer c r wok).
Proof. unfold initialisePlayer, update_player, ret. calm_tac. Qed.

Lemma scheduled_fanout (wok : connId -> bool) (m : list Z) (ps : list player) :
  scheduled (fanout wok m ps) = [].
Proof.
  unfold fanout. induction ps as [|p ps IH]; [reflexivity|].
  cbn [flat_map]. rewrite scheduled_app, IH, app_nil_r.
  destruct (Player.conn p) as [c|]; [|reflexivity].
  now destruct (wok c).
Qed.

Lemma scheduled_initialisePlayer
    (c : connId) (r : readResult) (wok : bool) (s : server) :
  scheduled (output_of (initialisePlayer c r wok s)) = [].
Proof.
  unfold initialisePlayer. destruct r as [m| |]; [|reflexivity..].
  destruct (negb (length m =? 1)%nat || (byte_at 0 m <? 0)
            || (5 <? byte_at 0 m)); [reflexivity|].
  unfold update_player, bind, player_at.
  destruct ((0 <=? byte_at 0 m) && (byte_at 0 m <? maxPlayers));
    [|reflexivity].
  destruct (players s !! Z.to_nat (byte_at 0 m)) as [p|] eqn:Hp;
    [|reflexivity].
  cbn. destruct (negb (isEmpty p)); [reflexivity|]. rewrite Hp.
  now destruct wok.
Qed.

(** [serveWs] up to its loop schedules what the [nextRound] it calls
    when the lobby fills schedules, and nothing else. *)
Lemma scheduled_serveWs_enter
    (c : connId) (u : bool) (r : readResult) (wok : bool) (s : server) :
  scheduled (output_of (serveWs_enter c u r wok s))
  = (if fills_lobby c u r wok s
     then scheduled
            (output_of (nextRound (state_of (initialisePlayer c r wok s))))
     else []).
Proof.
  unfold serveWs_enter, fills_lobby. rewrite bind_get.
  destruct (numPlayers s <=? currentNumPlayers s); [reflexivity|].
  destruct (0 <? round s); [reflexivity|].
  destruct u; [|reflexivity]. cbn [negb andb].
  pose proof (scheduled_initialisePlayer c r wok s) as Ho.
  destruct (initialisePlayer c r wok s) as [[q [e|]] s1 o1|e s1 o1] eqn:Hi;
    [rewrite (bind_ok _ _ _ _ _ _ Hi) ..
    | rewrite (bind_panicked _ _ _ _ _ _ Hi)];
    cbn [state_of output_of snd fst] in *.
  - now rewrite output_of_prepend, scheduled_app, Ho.
  - rewrite output_of_prepend, scheduled_app, Ho, bind_get.
    destruct (currentNumPlayers s1 =? numPlayers s1); [|reflexivity].
    unfold bind. rewrite nextRound_eq. cbn [prepend output_of ret].
    now rewrite app_nil_r.
  - exact Ho.
Qed.

(** X16: the exit of the process is scheduled by [nextRound], exactly
    when the call starts with the round counter at 10 and then once, with
    the linger delay and before the Play timer.  Nothing else in the
    server schedules it: [serveWs] up to its loop schedules what the
    [nextRound] it calls when the lobby fills schedules and nothing
    besides, and neither the handshake [initialisePlayer], nor a pass of
    the receive loop, whatever was read, nor the cleanup after the loop,
    nor the Play callback, nor the broadcaster schedules an exit. *)
Theorem exit_scheduled_only_by_last_transition :
  (forall s : server,
     scheduled (output_of (nextRound s))
     = (if round s =? lastRound
        then [(afterGameLingerTime, exitTask)] else [])
         ++ [(roundStartGraceTime, playTask)]) /\
  (forall s : server,
     has_exit (scheduled (output_of (nextRound s))) = (round s =? lastRound)) /\
  (forall (c : connId) (u : bool) (r : readResult) (wok : bool) (s : server),
     scheduled (output_of (serveWs_enter c u r wok s))
     = (if fills_lobby c u r wok s
        then scheduled
               (output_of (nextRound (state_of (initialisePlayer c r wok s))))
        else [])) /\
  (forall (c : connId) (r : readResult) (wok : bool) (s : server),
     has_exit (scheduled (output_of (initialisePlayer c r wok s))) = false) /\
  (forall (newP : player) (r : readResult) (wok : bool) (s : server),
     has_exit (scheduled (output_of (loop_body newP r wok s))) = false) /\
  (forall (newP : player) (s : server),
     has_exit (scheduled (output_of (disconnect newP s))) = false) /\
  (forall s : server,
     has_exit (scheduled (output_of (run_task playTask s))) = false) /\
  (forall (wok : connId -> bool) (m : list Z) (s : server),
     has_exit (scheduled (run_broadcast wok m s)) = false) /\
  (forall (wok : connId -> bool) (s : server),
     has_exit (scheduled (run_tick wok s)) = false).
Proof.
  repeat apply conj.
  - intros s. rewrite nextRound_eq. cbn [output_of].
    now destruct (round s =? lastRound).
  - intros s. rewrite nextRound_eq. cbn [output_of].
    now destruct (round s =? lastRound).
  - apply scheduled_serveWs_enter.
  - intros c r wok s. apply calm_initialisePlayer.
  - intros newP r wok s. apply calm_loop_body.
  - intros newP s. apply calm_disconnect.
  - reflexivity.
  - intros wok m s. unfold run_broadcast. now rewrite scheduled_fanout.
  - intros wok s. unfold run_tick.
    destruct (round s =? 0); [reflexivity|]. now rewrite scheduled_fanout.
Qed.
